(** * rx-player: playback observation and ISOBMFF timing

    Shallow embedding of
    - [src/transports/dash/isobmff_timing_infos.ts],
    - [src/core/init/multithread/worker/worker_playback_observer.ts],
    - [src/main_thread/init/utils/create_core_playback_observer.ts], and
      the WebVTT style block parser that follows it in the same file.

    JavaScript numbers are modelled by the rationals [Q]: every number the
    functions below compare, add or subtract is a finite value, and the
    special IEEE values (NaN, the infinities) are left out of the model.
    A value of type [number | undefined] is an [option Q]. Arithmetic is
    exact in the model, where the code rounds to the nearest double: the
    theorems on [getISOBMFFTimingInfos] are about which source gives the
    start time and the duration, and about values that are passed through
    unchanged; the one computed value they test is the sign of the sum of
    the sidx durations.

    The file has two parts: the definitions (one module per source file,
    then the concrete scenarios), and the theorems about them. *)

From Stdlib Require Import QArith Qabs Qminmax List Bool Ascii String Arith Lia.
Import ListNotations.

Local Open Scope Q_scope.

(* ===================================================================== *)
(** * Part I: definitions *)
(* ===================================================================== *)

(** ** JavaScript operators on numbers *)
Module Js.

(** [a < b] *)
Definition ltb (a b : Q) : bool := negb (Qle_bool b a).

(** [a >= b] *)
Definition geb (a b : Q) : bool := Qle_bool b a.

(** [a === b] on two numbers *)
Definition eqb (a b : Q) : bool := Qeq_bool a b.

(** Truthiness of a number: every number but [0] is truthy. *)
Definition truthy (a : Q) : bool := negb (Qeq_bool a 0).

(** [x || d] where [x : number | undefined] *)
Definition or_else (x : option Q) (d : Q) : Q :=
  match x with
  | Some a => if truthy a then a else d
  | None => d
  end.

(** [x == null] *)
Definition is_null {A : Type} (x : option A) : bool :=
  match x with Some _ => false | None => true end.

(** What a call does: it returns a value or throws. *)
Inductive Completion (A : Type) : Type :=
| Returns (a : A)
| Throws (message : string).
Arguments Returns {A} a.
Arguments Throws {A} message.

End Js.

(** ** [getISOBMFFTimingInfos] *)
Module IsobmffTiming.
Import Js.

(** [ISegment], as far as the function reads it. [time] and [duration]
    are optional here because the function guards both
    ([segment.time || 0], [segment.duration != null]). *)
Module ISegment.
Record t : Type := {
  time : option Q;
  duration : option Q;
  timescale : Q;
  timestampOffset : option Q
}.
End ISegment.

(** [ISidxSegment]; the function guards [duration] and [timescale]. *)
Module ISidxSegment.
Record t : Type := {
  time : Q;
  duration : option Q;
  timescale : option Q
}.
End ISidxSegment.

Module IChunkTimingInfos.
Record t : Type := {
  time : Q;
  duration : option Q;
  timescale : Q
}.
End IChunkTimingInfos.

Definition Uint8Array : Type := list Byte.byte.

Section WithParsers.

(** The build-time constant [__DEV__]. *)
Variable __DEV__ : bool.

(** The two ISOBMFF box readers of [parsers/containers/isobmff]. *)
Variable getTrackFragmentDecodeTime : Uint8Array -> Q.
Variable getDurationFromTrun : Uint8Array -> Q.

(** [assert(cond)] of [utils/assert], which is not among the sources: as
    its name and its place under [if (__DEV__)] say, it throws when [cond]
    is false. [k] is what follows the call. *)
Definition assert {A : Type} (cond : bool) (k : Completion A)
  : Completion A :=
  if cond then k else Throws "invalid assertion".

(** [initInfos && initInfos.timescale ? initInfos.timescale
                                      : segment.timescale] *)
Definition chosenTimescale (segment : ISegment.t)
           (initInfos : option IChunkTimingInfos.t) : Q :=
  match initInfos with
  | Some i =>
      if truthy (IChunkTimingInfos.timescale i)
      then IChunkTimingInfos.timescale i
      else ISegment.timescale segment
  | None => ISegment.timescale segment
  end.

(** The three variables set by the [if (timescale === segment.timescale)]
    statement: [maxDecodeTimeDelta], [segmentStart], [segmentDuration]. *)
Definition segmentScaled (segment : ISegment.t) (timescale : Q)
  : Q * option Q * option Q :=
  if eqb timescale (ISegment.timescale segment) then
    (Qmin (timescale * (9 # 10))
          (match ISegment.duration segment with
           | Some d => d / 4
           | None => 1 # 4
           end),
     ISegment.time segment,
     ISegment.duration segment)
  else
    (Qmin (timescale * (9 # 10))
          (match ISegment.duration segment with
           | Some d => ((d / ISegment.timescale segment) * timescale) / 4
           | None => 1 # 4
           end),
     Some ((or_else (ISegment.time segment) 0
            / ISegment.timescale segment) * timescale),
     match ISegment.duration segment with
     | Some d => Some ((d / ISegment.timescale segment) * timescale)
     | None => None
     end).

(** [x + segment.timestampOffset * timescale] when the offset is set *)
Definition withTimestampOffset (segment : ISegment.t) (timescale x : Q)
  : Q :=
  match ISegment.timestampOffset segment with
  | Some off => x + off * timescale
  | None => x
  end.

(** [startTime] after the [if (startTime == null)] statement *)
Definition resolveStartTime (segment : ISegment.t) (timescale : Q)
           (_sidxSegments : list ISidxSegment.t)
           (segmentStart startTime : option Q) : option Q :=
  match startTime with
  | Some s => Some s
  | None =>
      match _sidxSegments with
      | [] => segmentStart
      | first :: _ =>
          let sidxStart := ISidxSegment.time first in
          if geb sidxStart 0 then
            let baseStartTime :=
              match ISidxSegment.timescale first with
              | Some sidxTimescale =>
                  if negb (eqb sidxTimescale timescale)
                  then (sidxStart / sidxTimescale) * timescale
                  else sidxStart
              | None => sidxStart
              end in
            Some (withTimestampOffset segment timescale baseStartTime)
          else segmentStart
      end
  end.

(** [_sidxSegments.reduce((a, b) => a + (b.duration || 0), 0)] *)
Definition sidxDurationSum (_sidxSegments : list ISidxSegment.t) : Q :=
  fold_left (fun a b => a + or_else (ISidxSegment.duration b) 0)
            _sidxSegments 0.

(** [duration] after the [if (duration == null)] statement *)
Definition resolveDuration (_sidxSegments : list ISidxSegment.t)
           (segmentDuration duration : option Q) : option Q :=
  match duration with
  | Some d => Some d
  | None =>
      match _sidxSegments with
      | [] => segmentDuration
      | _ :: _ =>
          let sidxDuration := sidxDurationSum _sidxSegments in
          if geb sidxDuration 0 then Some sidxDuration
          else segmentDuration
      end
  end.

Definition getISOBMFFTimingInfos
           (buffer : Uint8Array) (isChunked : bool)
           (segment : ISegment.t)
           (sidxSegments : option (list ISidxSegment.t))
           (initInfos : option IChunkTimingInfos.t)
  : Completion (option IChunkTimingInfos.t) :=
  let _sidxSegments :=
    match sidxSegments with Some l => l | None => [] end in
  let baseDecodeTime := getTrackFragmentDecodeTime buffer in
  if isChunked then
    match ltb baseDecodeTime 0, initInfos with
    | false, Some init =>
        Returns (Some {| IChunkTimingInfos.time := baseDecodeTime;
                         IChunkTimingInfos.duration := None;
                         IChunkTimingInfos.timescale :=
                           IChunkTimingInfos.timescale init |})
    | _, _ => Returns None
    end
  else
    let trunDuration := getDurationFromTrun buffer in
    let timescale := chosenTimescale segment initInfos in
    let '(maxDecodeTimeDelta, segmentStart, segmentDuration) :=
      segmentScaled segment timescale in
    let startTime :=
      if geb baseDecodeTime 0
      then Some (withTimestampOffset segment timescale baseDecodeTime)
      else None in
    let duration :=
      if geb trunDuration 0 &&
         match segmentDuration with
         | None => true
         | Some sd =>
             Qle_bool (Qabs (trunDuration - sd)) maxDecodeTimeDelta
         end
      then Some trunDuration
      else None in
    let startTime :=
      resolveStartTime segment timescale _sidxSegments
                       segmentStart startTime in
    let duration :=
      resolveDuration _sidxSegments segmentDuration duration in
    let result :=
      Returns (Some {| IChunkTimingInfos.timescale := timescale;
                       IChunkTimingInfos.time := or_else startTime 0;
                       IChunkTimingInfos.duration :=
                         Some (or_else duration 0) |}) in
    if __DEV__ then
      assert (negb (is_null startTime))
             (assert (negb (is_null duration)) result)
    else result.

End WithParsers.

End IsobmffTiming.

(** ** The Shared Reference *)
Module Reference.

(** Modelled from the spec: the Shared Reference of [utils/reference] is
    not among the sources. Section 3 gives its attributes: the current
    value, the ordered list of listeners and a disposed flag. [L] is the
    type of the listeners. *)
Record SharedReference (T L : Type) : Type := {
  value : T;
  listeners : list L;
  disposed : bool
}.
Arguments value {T L} _.
Arguments listeners {T L} _.
Arguments disposed {T L} _.

(** The options of [onUpdate]; [S] names cancellation signals. *)
Record OnUpdateOptions (S : Type) : Type := {
  clearSignal : option S;
  emitCurrentValue : option bool
}.
Arguments clearSignal {S} _.
Arguments emitCurrentValue {S} _.

Section Cell.
Context {T L : Type}.

(** Modelled from the spec: [new SharedReference(initialValue)]. *)
Definition create (initialValue : T) : SharedReference T L :=
  {| value := initialValue; listeners := []; disposed := false |}.

(** Modelled from the spec: [get()] "returns current value synchronously,
    never blocks, never fails". *)
Definition getValue (r : SharedReference T L) : T := value r.

(** Modelled from the spec: the first half of [set(value)], "replaces
    current value"; the notification pass is written where the listeners
    can run. *)
Definition replaceValue (v : T) (r : SharedReference T L)
  : SharedReference T L :=
  {| value := v; listeners := listeners r; disposed := disposed r |}.

(** Modelled from the spec: [onUpdate] "registers callback", at the end
    of the ordered list. *)
Definition addListener (l : L) (r : SharedReference T L)
  : SharedReference T L :=
  {| value := value r; listeners := listeners r ++ [l];
     disposed := disposed r |}.

(** Modelled from the spec: the cleanup "that unregisters the callback". *)
Definition removeListener (same : L -> L -> bool) (l : L)
           (r : SharedReference T L) : SharedReference T L :=
  {| value := value r;
     listeners := filter (fun l' => negb (same l l')) (listeners r);
     disposed := disposed r |}.

(** Modelled from the spec: "once disposed, no further updates are
    accepted and all listeners are released". *)
Definition dispose (r : SharedReference T L) : SharedReference T L :=
  {| value := value r; listeners := []; disposed := true |}.

End Cell.

(** [options.emitCurrentValue === true] *)
Definition emits {S : Type} (options : OnUpdateOptions S) : bool :=
  match emitCurrentValue options with
  | Some true => true
  | _ => false
  end.

End Reference.

(** ** The Cancellation Signal *)
Module Cancellation.

(** Modelled from the spec: the signal of [utils/task_canceller] is not
    among the sources. Section 3 gives its attributes: the cancelled flag
    and the ordered list of cleanup callbacks. [C] is the type of the
    cleanups. *)
Record CancellationSignal (C : Type) : Type := {
  cancelled : bool;
  cleanups : list C
}.
Arguments cancelled {C} _.
Arguments cleanups {C} _.

Section Signal.
Context {C : Type}.

(** Modelled from the spec: a signal starts active, with no cleanup. *)
Definition fresh : CancellationSignal C :=
  {| cancelled := false; cleanups := [] |}.

(** Modelled from the spec: [isCancelled()], "pure query, no side
    effect". *)
Definition isCancelled (s : CancellationSignal C) : bool := cancelled s.

(** Modelled from the spec: [register(cleanup)] on a signal that is still
    active stores the cleanup, in registration order. *)
Definition store (c : C) (s : CancellationSignal C) : CancellationSignal C :=
  {| cancelled := cancelled s; cleanups := cleanups s ++ [c] |}.

(** Modelled from the spec: [cancel] "marks cancelled". *)
Definition mark (s : CancellationSignal C) : CancellationSignal C :=
  {| cancelled := true; cleanups := cleanups s |}.

(** Modelled from the spec: [cancel] "then clears the callback list". *)
Definition clear (s : CancellationSignal C) : CancellationSignal C :=
  {| cancelled := cancelled s; cleanups := [] |}.

End Signal.

End Cancellation.

(** ** [WorkerPlaybackObserver] *)
Module WorkerObserver.
Import Reference Cancellation.

(** Signals and callbacks are objects and closures of the caller: the
    model names them. *)
Definition SignalId : Type := nat.
Definition CallbackId : Type := nat.

(** The closures registered on a signal: the [unlisten] of a callback, or
    a cleanup of another component. *)
Inductive Cleanup : Type :=
| Unlisten (cb : CallbackId)
| OtherCleanup (id : nat).

(** [WorkerMessageType] of [multithread_types]. *)
Inductive WorkerMessageType : Type :=
| UpdatePlaybackRate
| OtherWorkerMessage (tag : string).

(** The object handed to [sendMessage] by [setPlaybackRate]. *)
Module WorkerMessage.
Record t : Type := {
  type : WorkerMessageType;
  contentId : string;
  value : Q
}.
End WorkerMessage.

(** [options] of [listen]: both fields optional. *)
Record ListenOptions : Type := {
  includeLastObservation : option bool;
  listenClearSignal : option SignalId
}.

(** The private fields of the class. [_src] designates the one reference
    of the state below. *)
Record WorkerPlaybackObserver : Type := {
  _contentId : string;
  _cancelSignal : SignalId
}.

Section WithObservation.

(** [IWorkerPlaybackObservation] of [multithread_types]. *)
Variable IWorkerPlaybackObservation : Type.

(** An inbound observation message: the tagged payload of section 6. *)
Record ObservationMessage : Type := {
  messageContentId : string;
  messageValue : IWorkerPlaybackObservation
}.

(** What the methods of the class can read and change: the backing
    reference [_src], the cancellation signals, the messages posted to the
    main thread (oldest first) and the calls made to the callbacks
    (oldest first). *)
Record State : Type := {
  src : SharedReference IWorkerPlaybackObservation CallbackId;
  signals : SignalId -> CancellationSignal Cleanup;
  outbox : list WorkerMessage.t;
  calls : list (CallbackId * IWorkerPlaybackObservation)
}.

Definition with_src (r : SharedReference IWorkerPlaybackObservation CallbackId)
           (st : State) : State :=
  {| src := r; signals := signals st; outbox := outbox st;
     calls := calls st |}.

Definition with_signal (s : SignalId) (sig : CancellationSignal Cleanup)
           (st : State) : State :=
  {| src := src st;
     signals := fun s' => if Nat.eqb s' s then sig else signals st s';
     outbox := outbox st; calls := calls st |}.

(** [cb(observation, stopListening)]: the callback belongs to the caller,
    the model records the call. *)
Definition invoke (cb : CallbackId) (observation : IWorkerPlaybackObservation)
           (st : State) : State :=
  {| src := src st; signals := signals st; outbox := outbox st;
     calls := calls st ++ [(cb, observation)] |}.

(** Modelled from the spec: [sendMessage] of [./send_message] is not
    among the sources; it posts its argument on the cross-boundary
    channel of section 6. *)
Definition sendMessage (msg : WorkerMessage.t) (st : State) : State :=
  {| src := src st; signals := signals st; outbox := outbox st ++ [msg];
     calls := calls st |}.

(** Modelled from the spec: [onUpdate(callback, options)] of section 4.1.
    With a [clearSignal] already cancelled it is a no-op. Otherwise the
    callback is called at once with the current value when
    [emitCurrentValue] is true (property P2), and, unless the reference
    is disposed, it is registered at the end of the listener list and the
    cleanup that unregisters it is registered on [clearSignal]. A
    disposed reference keeps no listener (section 3: "once disposed, no
    further updates are accepted and all listeners are released"), so
    that nothing is registered on it, nor on [clearSignal] for it. *)
Definition onUpdate (cb : CallbackId) (options : OnUpdateOptions SignalId)
           (st : State) : State :=
  let emit (st' : State) : State :=
    if emits options then invoke cb (getValue (src st)) st' else st' in
  match clearSignal options with
  | Some s =>
      if isCancelled (signals st s) then st
      else if disposed (src st) then emit st
      else
        let emitted := emit (with_src (addListener cb (src st)) st) in
        with_signal s (store (Unlisten cb) (signals emitted s)) emitted
  | None =>
      if disposed (src st) then emit st
      else emit (with_src (addListener cb (src st)) st)
  end.

(** Modelled from the spec: [set(value)] of section 4.1 on the backing
    reference: the value is replaced, then every listener registered at
    that time is called with it, in registration order. A disposed
    reference accepts no update. *)
Definition setValue (v : IWorkerPlaybackObservation) (st : State) : State :=
  if disposed (src st) then st
  else
    fold_left (fun acc cb => invoke cb v acc)
              (listeners (src st))
              (with_src (replaceValue v (src st)) st).

(** Modelled from the spec: the handler of inbound observation messages
    is not among the sources. Sections 3, 4.5 and 9: a message tagged
    with the content identifier of the observer is deserialized and set
    on the backing reference; a message for any other identifier is
    dropped. *)
Definition onObservationMessage (this : WorkerPlaybackObserver)
           (msg : ObservationMessage) (st : State) : State :=
  if String.eqb (messageContentId msg) (_contentId this)
  then setValue (messageValue msg) st
  else st.

(** *** The methods of the class. Each takes the state and answers with
    its result and the state it leaves. *)

Definition getCurrentTime (this : WorkerPlaybackObserver) (st : State)
  : option Q * State := (None, st).

Definition getReadyState (this : WorkerPlaybackObserver) (st : State)
  : option Q * State := (None, st).

Definition getIsPaused (this : WorkerPlaybackObserver) (st : State)
  : option bool * State := (None, st).

Definition getReference (this : WorkerPlaybackObserver) (st : State)
  : SharedReference IWorkerPlaybackObservation CallbackId * State :=
  (src st, st).

Definition setPlaybackRate (this : WorkerPlaybackObserver) (playbackRate : Q)
           (st : State) : unit * State :=
  (tt, sendMessage {| WorkerMessage.type := UpdatePlaybackRate;
                      WorkerMessage.contentId := _contentId this;
                      WorkerMessage.value := playbackRate |} st).

Definition getPlaybackRate (this : WorkerPlaybackObserver) (st : State)
  : option Q * State := (None, st).

(** [options?.clearSignal] *)
Definition optClearSignal (options : option ListenOptions) : option SignalId :=
  match options with
  | Some o => listenClearSignal o
  | None => None
  end.

(** [options?.includeLastObservation] *)
Definition optIncludeLastObservation (options : option ListenOptions)
  : option bool :=
  match options with
  | Some o => includeLastObservation o
  | None => None
  end.

(** [options?.clearSignal?.isCancelled() === true] *)
Definition clearSignalCancelled (options : option ListenOptions) (st : State)
  : bool :=
  match optClearSignal options with
  | Some s => isCancelled (signals st s)
  | None => false
  end.

Definition listen (this : WorkerPlaybackObserver) (cb : CallbackId)
           (options : option ListenOptions) (st : State) : unit * State :=
  if isCancelled (signals st (_cancelSignal this))
     || clearSignalCancelled options st
  then (tt, st)
  else
    (tt, onUpdate cb {| clearSignal := optClearSignal options;
                        emitCurrentValue := optIncludeLastObservation options |}
                  st).

End WithObservation.

Arguments messageContentId {IWorkerPlaybackObservation}.
Arguments messageValue {IWorkerPlaybackObservation}.
Arguments src {IWorkerPlaybackObservation}.
Arguments signals {IWorkerPlaybackObservation}.
Arguments outbox {IWorkerPlaybackObservation}.
Arguments calls {IWorkerPlaybackObservation}.
Arguments with_src {IWorkerPlaybackObservation}.
Arguments with_signal {IWorkerPlaybackObservation}.
Arguments invoke {IWorkerPlaybackObservation}.
Arguments sendMessage {IWorkerPlaybackObservation}.
Arguments onUpdate {IWorkerPlaybackObservation}.
Arguments setValue {IWorkerPlaybackObservation}.
Arguments onObservationMessage {IWorkerPlaybackObservation}.
Arguments getCurrentTime {IWorkerPlaybackObservation}.
Arguments getReadyState {IWorkerPlaybackObservation}.
Arguments getIsPaused {IWorkerPlaybackObservation}.
Arguments getReference {IWorkerPlaybackObservation}.
Arguments setPlaybackRate {IWorkerPlaybackObservation}.
Arguments getPlaybackRate {IWorkerPlaybackObservation}.
Arguments clearSignalCancelled {IWorkerPlaybackObservation}.
Arguments listen {IWorkerPlaybackObservation}.

End WorkerObserver.

(** ** [createCorePlaybackObserver] *)
Module CoreObserver.
Import Js Reference Cancellation.

(** *** Objects shared by reference *)

(** The position object of an observation is shared between the base
    observation and the core observation built from it, and
    [forceWantedPosition] writes into it: position objects live in a heap
    and observations hold their address. *)
Definition loc : Type := nat.

(** Modelled from the spec: the position object of [main_thread/api] is
    not among the sources. Section 3: "position (current + wanted pending
    seek target)"; [getWanted] reads the wanted position and
    [forceWantedPosition] overwrites it. *)
Module ObservationPosition.
Record t : Type := {
  current : Q;
  wanted : Q
}.
Definition getWanted (p : t) : Q := wanted p.
Definition forceWantedPosition (pos : Q) (p : t) : t :=
  {| current := current p; wanted := pos |}.
End ObservationPosition.

Definition Heap : Type := loc -> ObservationPosition.t.

(** The heap after the object at [l] became [p]. *)
Definition write (l : loc) (p : ObservationPosition.t) (h : Heap) : Heap :=
  fun l' => if Nat.eqb l' l then p else h l'.

(** [TimeRanges]: the ordered [start, end) ranges. *)
Definition TimeRanges : Type := list (Q * Q).

(** [buffered.end(i)]; the DOM method throws out of range, which the one
    call below excludes by testing [buffered.length] first. *)
Definition TimeRanges_end (buffered : TimeRanges) (i : nat) : option Q :=
  option_map snd (nth_error buffered i).

Module IPeriod.
Record t : Type := {
  start : Q;
  end_ : option Q
}.
End IPeriod.

(** [IManifestMetadata]: the three fields the builder reads, and the rest
    of the manifest, which the maximum-position query reads. *)
Module IManifestMetadata.
Record t (Internals : Type) : Type := {
  isDynamic : bool;
  isLastPeriodKnown : bool;
  periods : list IPeriod.t;
  internals : Internals
}.
Arguments isDynamic {Internals} _.
Arguments isLastPeriodKnown {Internals} _.
Arguments periods {Internals} _.
Arguments internals {Internals} _.
End IManifestMetadata.

(** The types and functions the builder takes from other modules:
    the rebuffering and freezing statuses it copies, the media source and
    text displayer it hands to [getBufferedDataPerMediaBuffer], and the
    manifest's [getMaximumSafePosition]. *)
Record Collaborators : Type := {
  IRebufferingStatus : Type;
  IFreezingStatus : Type;
  IMediaSourceInterface : Type;
  ITextDisplayer : Type;
  BufferedData : Type;
  ManifestInternals : Type;
  getMaximumSafePosition : IManifestMetadata.t ManifestInternals -> Q;
  getBufferedDataPerMediaBuffer :
    option IMediaSourceInterface -> option ITextDisplayer -> BufferedData
}.

(** [IPlaybackObservation], the fields the builder reads. *)
Module IPlaybackObservation.
Record t (X : Collaborators) : Type := {
  bufferGap : Q;
  position : loc;
  duration : Q;
  rebuffering : IRebufferingStatus X;
  freezing : IFreezingStatus X;
  paused : bool;
  readyState : Q;
  buffered : TimeRanges
}.
Arguments bufferGap {X} _.
Arguments position {X} _.
Arguments duration {X} _.
Arguments rebuffering {X} _.
Arguments freezing {X} _.
Arguments paused {X} _.
Arguments readyState {X} _.
Arguments buffered {X} _.
End IPlaybackObservation.

(** The [paused] field of the core observation. *)
Module Paused.
Record t : Type := {
  last : bool;
  pending : option bool
}.
End Paused.

(** [ICorePlaybackObservation], the object literal the builder returns. *)
Module ICorePlaybackObservation.
Record t (X : Collaborators) : Type := {
  maximumPosition : Q;
  bufferGap : Q;
  position : loc;
  buffered : BufferedData X;
  duration : Q;
  rebuffering : IRebufferingStatus X;
  freezing : IFreezingStatus X;
  paused : Paused.t;
  readyState : Q;
  speed : Q
}.
Arguments maximumPosition {X} _.
Arguments bufferGap {X} _.
Arguments position {X} _.
Arguments buffered {X} _.
Arguments duration {X} _.
Arguments rebuffering {X} _.
Arguments freezing {X} _.
Arguments paused {X} _.
Arguments readyState {X} _.
Arguments speed {X} _.
End ICorePlaybackObservation.

(** The two references the transform subscribes to. *)
Inductive Source : Type :=
| SpeedRef
| ObservationRef.

(** The listeners of the two source references: the closure
    [emitCorePlaybackObservation] of the transform, or a callback of
    another component. *)
Inductive Listener : Type :=
| EmitCorePlaybackObservation
| OtherListener (id : nat).

Definition Listener_eqb (a b : Listener) : bool :=
  match a, b with
  | EmitCorePlaybackObservation, EmitCorePlaybackObservation => true
  | OtherListener i, OtherListener j => Nat.eqb i j
  | _, _ => false
  end.

(** The cleanups of [parentObserverCancelSignal] and [fnCancelSignal]:
    the closure registered by [canceller.linkToSignal], or a cleanup of
    another component. *)
Inductive SourceCleanup : Type :=
| CancelCanceller
| OtherSourceCleanup (id : nat).

(** The cleanups of [canceller.signal]: the disposal of [newRef] and the
    [unlisten] closures of its [onUpdate] registrations. *)
Inductive CancellerCleanup : Type :=
| FinishNewRef
| Unlisten (src : Source) (cb : Listener).

(** The one signal the transform passes as [clearSignal]. *)
Inductive ClearSignal : Type :=
| CancellerSignal.

(** The two signals the canceller is linked to. *)
Inductive LinkedSignal : Type :=
| ParentObserverCancelSignal
| FnCancelSignal.

(** What the trace records: a run of the transform's body, a call of
    [constructCorePlaybackObservation], a [newRef.setValue] that was
    accepted. *)
Inductive Event (X : Collaborators) : Type :=
| TransformSetup
| Constructed
| Published (observation : ICorePlaybackObservation.t X).
Arguments TransformSetup {X}.
Arguments Constructed {X}.
Arguments Published {X} observation.

Section WithCollaborators.

Variable X : Collaborators.

(** The [autoPlay] argument. *)
Variable autoPlay : bool.

Local Abbreviation Manifest := (IManifestMetadata.t (ManifestInternals X)).
Local Abbreviation Observation := (IPlaybackObservation.t X).
Local Abbreviation CoreObservation := (ICorePlaybackObservation.t X).

(** What [createCorePlaybackObserver] is given and closes over: the heap
    of position objects, the manifest, media source and text displayer in
    their current state, the three references and the two signals. [L] is
    the type of the listeners of [speed] and [observationRef], [C] the
    type of the cleanups of the two signals. [trace] is no object of the
    program: it is the history the model keeps to count calls, newest
    event first. *)
Record Env (L C : Type) : Type := {
  heap : Heap;
  manifest : Manifest;
  mediaSource : option (IMediaSourceInterface X);
  textDisplayer : option (ITextDisplayer X);
  initialPlayPerformed : SharedReference bool nat;
  speed : SharedReference Q L;
  observationRef : SharedReference Observation L;
  parentObserverCancelSignal : CancellationSignal C;
  fnCancelSignal : CancellationSignal C;
  trace : list (Event X)
}.
Arguments heap {L C} _.
Arguments manifest {L C} _.
Arguments mediaSource {L C} _.
Arguments textDisplayer {L C} _.
Arguments initialPlayPerformed {L C} _.
Arguments speed {L C} _.
Arguments observationRef {L C} _.
Arguments parentObserverCancelSignal {L C} _.
Arguments fnCancelSignal {L C} _.
Arguments trace {L C} _.

Definition with_heap {L C} (h : Heap) (e : Env L C) : Env L C :=
  {| heap := h; manifest := manifest e; mediaSource := mediaSource e;
     textDisplayer := textDisplayer e;
     initialPlayPerformed := initialPlayPerformed e; speed := speed e;
     observationRef := observationRef e;
     parentObserverCancelSignal := parentObserverCancelSignal e;
     fnCancelSignal := fnCancelSignal e; trace := trace e |}.

Definition log {L C} (ev : Event X) (e : Env L C) : Env L C :=
  {| heap := heap e; manifest := manifest e; mediaSource := mediaSource e;
     textDisplayer := textDisplayer e;
     initialPlayPerformed := initialPlayPerformed e; speed := speed e;
     observationRef := observationRef e;
     parentObserverCancelSignal := parentObserverCancelSignal e;
     fnCancelSignal := fnCancelSignal e; trace := ev :: trace e |}.

Definition with_manifest {L C} (m : Manifest) (e : Env L C) : Env L C :=
  {| heap := heap e; manifest := m; mediaSource := mediaSource e;
     textDisplayer := textDisplayer e;
     initialPlayPerformed := initialPlayPerformed e; speed := speed e;
     observationRef := observationRef e;
     parentObserverCancelSignal := parentObserverCancelSignal e;
     fnCancelSignal := fnCancelSignal e; trace := trace e |}.

Definition with_buffers {L C} (ms : option (IMediaSourceInterface X))
           (td : option (ITextDisplayer X)) (e : Env L C) : Env L C :=
  {| heap := heap e; manifest := manifest e; mediaSource := ms;
     textDisplayer := td;
     initialPlayPerformed := initialPlayPerformed e; speed := speed e;
     observationRef := observationRef e;
     parentObserverCancelSignal := parentObserverCancelSignal e;
     fnCancelSignal := fnCancelSignal e; trace := trace e |}.

Definition with_initialPlayPerformed {L C} (r : SharedReference bool nat)
           (e : Env L C) : Env L C :=
  {| heap := heap e; manifest := manifest e; mediaSource := mediaSource e;
     textDisplayer := textDisplayer e;
     initialPlayPerformed := r; speed := speed e;
     observationRef := observationRef e;
     parentObserverCancelSignal := parentObserverCancelSignal e;
     fnCancelSignal := fnCancelSignal e; trace := trace e |}.

Definition with_speed {L C} (r : SharedReference Q L) (e : Env L C)
  : Env L C :=
  {| heap := heap e; manifest := manifest e; mediaSource := mediaSource e;
     textDisplayer := textDisplayer e;
     initialPlayPerformed := initialPlayPerformed e; speed := r;
     observationRef := observationRef e;
     parentObserverCancelSignal := parentObserverCancelSignal e;
     fnCancelSignal := fnCancelSignal e; trace := trace e |}.

Definition with_observationRef {L C} (r : SharedReference Observation L)
           (e : Env L C) : Env L C :=
  {| heap := heap e; manifest := manifest e; mediaSource := mediaSource e;
     textDisplayer := textDisplayer e;
     initialPlayPerformed := initialPlayPerformed e; speed := speed e;
     observationRef := r;
     parentObserverCancelSignal := parentObserverCancelSignal e;
     fnCancelSignal := fnCancelSignal e; trace := trace e |}.

Definition linked {L C} (which : LinkedSignal) (e : Env L C)
  : CancellationSignal C :=
  match which with
  | ParentObserverCancelSignal => parentObserverCancelSignal e
  | FnCancelSignal => fnCancelSignal e
  end.

Definition with_linked {L C} (which : LinkedSignal)
           (s : CancellationSignal C) (e : Env L C) : Env L C :=
  {| heap := heap e; manifest := manifest e; mediaSource := mediaSource e;
     textDisplayer := textDisplayer e;
     initialPlayPerformed := initialPlayPerformed e; speed := speed e;
     observationRef := observationRef e;
     parentObserverCancelSignal :=
       match which with
       | ParentObserverCancelSignal => s
       | FnCancelSignal => parentObserverCancelSignal e
       end;
     fnCancelSignal :=
       match which with
       | ParentObserverCancelSignal => fnCancelSignal e
       | FnCancelSignal => s
       end;
     trace := trace e |}.

(** *** The two exported helpers *)

(** [manifest.periods[manifest.periods.length - 1]]: [undefined] on an
    empty array, which is also what [nth_error] answers there. *)
Definition lastPeriodOf (m : Manifest) : option IPeriod.t :=
  nth_error (IManifestMetadata.periods m)
            (List.length (IManifestMetadata.periods m) - 1).

(** [buffered.length === 0 ||
     buffered.end(buffered.length - 1) < observation.duration - 1] *)
Definition lastSegmentProbablyNotLoaded (observation : Observation) : bool :=
  let buffered := IPlaybackObservation.buffered observation in
  Nat.eqb (List.length buffered) 0
  || match TimeRanges_end buffered (List.length buffered - 1) with
     | Some e => ltb e (IPlaybackObservation.duration observation - 1)
     | None => false
     end.

(** [observation.position.forceWantedPosition(pos)]: a write into the
    position object the observation points to. *)
Definition forceWantedPositionOf (observation : Observation) (pos : Q)
           (h : Heap) : Heap :=
  write (IPlaybackObservation.position observation)
        (ObservationPosition.forceWantedPosition
           pos (h (IPlaybackObservation.position observation)))
        h.

Definition updateWantedPositionIfAfterManifest
           (observation : Observation) (manifest : Manifest) (h : Heap)
  : Heap :=
  if negb (IManifestMetadata.isDynamic manifest)
     || IManifestMetadata.isLastPeriodKnown manifest
  then
    match lastPeriodOf manifest with
    | Some lastPeriod =>
        match IPeriod.end_ lastPeriod with
        | Some lastEnd =>
            let wantedPosition :=
              ObservationPosition.getWanted
                (h (IPlaybackObservation.position observation)) in
            if geb wantedPosition (IPeriod.start lastPeriod)
               && geb wantedPosition (lastEnd - 1)
            then
              if lastSegmentProbablyNotLoaded observation
              then forceWantedPositionOf observation (lastEnd - 1) h
              else h
            else h
        | None => h
        end
    | None => h
    end
  else h.

Definition getPendingPaused (initialPlayPerformed : SharedReference bool nat)
           (autoPlay : bool) : option bool :=
  if getValue initialPlayPerformed then None else Some (negb autoPlay).

(** *** The closures of the transform *)

Definition constructCorePlaybackObservation {L C} (e : Env L C)
  : CoreObservation * Env L C :=
  let observation := getValue (observationRef e) in
  let lastSpeed := getValue (speed e) in
  let e :=
    with_heap
      (updateWantedPositionIfAfterManifest observation (manifest e) (heap e))
      (log Constructed e) in
  ({| ICorePlaybackObservation.maximumPosition :=
        getMaximumSafePosition X (manifest e);
      ICorePlaybackObservation.bufferGap :=
        IPlaybackObservation.bufferGap observation;
      ICorePlaybackObservation.position :=
        IPlaybackObservation.position observation;
      ICorePlaybackObservation.buffered :=
        getBufferedDataPerMediaBuffer X (mediaSource e) (textDisplayer e);
      ICorePlaybackObservation.duration :=
        IPlaybackObservation.duration observation;
      ICorePlaybackObservation.rebuffering :=
        IPlaybackObservation.rebuffering observation;
      ICorePlaybackObservation.freezing :=
        IPlaybackObservation.freezing observation;
      ICorePlaybackObservation.paused :=
        {| Paused.last := IPlaybackObservation.paused observation;
           Paused.pending :=
             getPendingPaused (initialPlayPerformed e) autoPlay |};
      ICorePlaybackObservation.readyState :=
        IPlaybackObservation.readyState observation;
      ICorePlaybackObservation.speed := lastSpeed |},
   e).

(** The state once the transform has created [canceller] and [newRef]. *)
Record World : Type := {
  env : Env Listener SourceCleanup;
  canceller : CancellationSignal CancellerCleanup;
  newRef : SharedReference CoreObservation nat
}.

Definition with_env (e : Env Listener SourceCleanup) (w : World) : World :=
  {| env := e; canceller := canceller w; newRef := newRef w |}.

Definition with_canceller (s : CancellationSignal CancellerCleanup)
           (w : World) : World :=
  {| env := env w; canceller := s; newRef := newRef w |}.

Definition with_newRef (r : SharedReference CoreObservation nat) (w : World)
  : World :=
  {| env := env w; canceller := canceller w; newRef := r |}.

(** Modelled from the spec: [newRef.setValue(v)], the [set] of section
    4.1. A disposed reference accepts no update. The listeners of [newRef]
    are callbacks of its consumers: calling them leaves this state as it
    is. *)
Definition newRef_setValue (v : CoreObservation) (w : World) : World :=
  if disposed (newRef w) then w
  else with_env (log (Published v) (env w))
                (with_newRef (replaceValue v (newRef w)) w).

Definition emitCorePlaybackObservation (w : World) : World :=
  let '(observation, e) := constructCorePlaybackObservation (env w) in
  newRef_setValue observation (with_env e w).

(** A call of a listener of [speed] or [observationRef]. A callback of
    another component leaves this state as it is. *)
Definition trigger (l : Listener) (w : World) : World :=
  match l with
  | EmitCorePlaybackObservation => emitCorePlaybackObservation w
  | OtherListener _ => w
  end.

(** *** The primitives, on this state *)

Definition addSourceListener (src : Source) (l : Listener) (w : World)
  : World :=
  match src with
  | SpeedRef =>
      with_env (with_speed (addListener l (speed (env w))) (env w)) w
  | ObservationRef =>
      with_env (with_observationRef
                  (addListener l (observationRef (env w))) (env w)) w
  end.

Definition removeSourceListener (src : Source) (l : Listener) (w : World)
  : World :=
  match src with
  | SpeedRef =>
      with_env (with_speed (removeListener Listener_eqb l (speed (env w)))
                           (env w)) w
  | ObservationRef =>
      with_env (with_observationRef
                  (removeListener Listener_eqb l (observationRef (env w)))
                  (env w)) w
  end.

(** A cleanup of [canceller.signal] runs. *)
Definition runCancellerCleanup (c : CancellerCleanup) (w : World) : World :=
  match c with
  | FinishNewRef => with_newRef (dispose (newRef w)) w
  | Unlisten src cb => removeSourceListener src cb w
  end.

(** Modelled from the spec: [canceller.cancel()], section 4.2. "On first
    call: marks cancelled, runs all registered cleanup callbacks in
    registration order, then clears the callback list"; on a cancelled
    signal it is a no-op. *)
Definition cancelCanceller (w : World) : World :=
  if isCancelled (canceller w) then w
  else
    let w1 := with_canceller (mark (canceller w)) w in
    let w2 :=
      fold_left (fun acc c => runCancellerCleanup c acc)
                (cleanups (canceller w)) w1 in
    with_canceller (clear (canceller w2)) w2.

(** A cleanup of one of the two linked signals runs. A cleanup of another
    component leaves this state as it is. *)
Definition runSourceCleanup (c : SourceCleanup) (w : World) : World :=
  match c with
  | CancelCanceller => cancelCanceller w
  | OtherSourceCleanup _ => w
  end.

(** Modelled from the spec: [cancel()] of one of the two linked signals,
    called by its owner. *)
Definition cancelLinked (which : LinkedSignal) (w : World) : World :=
  if isCancelled (linked which (env w)) then w
  else
    let w1 :=
      with_env (with_linked which (mark (linked which (env w))) (env w)) w in
    let w2 :=
      fold_left (fun acc c => runSourceCleanup c acc)
                (cleanups (linked which (env w))) w1 in
    with_env (with_linked which (clear (linked which (env w2))) (env w2)) w2.

(** Modelled from the spec: [register(cleanup)] on [canceller.signal]:
    "if already cancelled, invoke cleanup immediately (synchronously)
    instead of storing it". *)
Definition registerOnCanceller (c : CancellerCleanup) (w : World) : World :=
  if isCancelled (canceller w) then runCancellerCleanup c w
  else with_canceller (store c (canceller w)) w.

(** [src] is disposed. *)
Definition sourceDisposed (src : Source) (w : World) : bool :=
  match src with
  | SpeedRef => disposed (speed (env w))
  | ObservationRef => disposed (observationRef (env w))
  end.

(** Modelled from the spec: [onUpdate(callback, options)] of section 4.1
    on [speed] or [observationRef]. With a [clearSignal] already cancelled
    it is a no-op. Otherwise the callback is called at once when
    [emitCurrentValue] is true, and, unless the reference is disposed, it
    is registered and the cleanup that unregisters it is registered on
    [clearSignal]. A disposed reference keeps no listener (section 3:
    "once disposed, no further updates are accepted and all listeners
    are released"): nothing is registered on it, nor on [clearSignal]
    for it. *)
Definition onUpdate (src : Source) (cb : Listener)
           (options : OnUpdateOptions ClearSignal) (w : World) : World :=
  let emit (w' : World) : World :=
    if emits options then trigger cb w' else w' in
  match clearSignal options with
  | Some CancellerSignal =>
      if isCancelled (canceller w) then w
      else if sourceDisposed src w then emit w
      else registerOnCanceller (Unlisten src cb)
                               (emit (addSourceListener src cb w))
  | None =>
      if sourceDisposed src w then emit w
      else emit (addSourceListener src cb w)
  end.

(** Modelled from the spec: [speed.setValue(v)], the [set] of section
    4.1: the value is replaced, then every listener registered at that
    time is called, in registration order. A disposed reference accepts no
    update. *)
Definition speed_setValue (v : Q) (w : World) : World :=
  if disposed (speed (env w)) then w
  else
    fold_left (fun acc l => trigger l acc)
              (listeners (speed (env w)))
              (with_env (with_speed (replaceValue v (speed (env w))) (env w))
                        w).

(** Modelled from the spec: [observationRef.setValue(v)], likewise. *)
Definition observationRef_setValue (v : Observation) (w : World) : World :=
  if disposed (observationRef (env w)) then w
  else
    fold_left (fun acc l => trigger l acc)
              (listeners (observationRef (env w)))
              (with_env (with_observationRef
                           (replaceValue v (observationRef (env w))) (env w))
                        w).

(** *** The transform *)

(** The environment as the transform sees it: the listeners and cleanups
    found there all belong to other components. *)
Definition foreignReference {T} (r : SharedReference T nat)
  : SharedReference T Listener :=
  {| value := value r; listeners := map OtherListener (listeners r);
     disposed := disposed r |}.

Definition foreignSignal (s : CancellationSignal nat)
  : CancellationSignal SourceCleanup :=
  {| cancelled := cancelled s;
     cleanups := map OtherSourceCleanup (cleanups s) |}.

Definition foreign (e : Env nat nat) : Env Listener SourceCleanup :=
  {| heap := heap e; manifest := manifest e; mediaSource := mediaSource e;
     textDisplayer := textDisplayer e;
     initialPlayPerformed := initialPlayPerformed e;
     speed := foreignReference (speed e);
     observationRef := foreignReference (observationRef e);
     parentObserverCancelSignal :=
       foreignSignal (parentObserverCancelSignal e);
     fnCancelSignal := foreignSignal (fnCancelSignal e);
     trace := trace e |}.

(** Modelled from the spec: [canceller.linkToSignal(signal)], section
    4.2: "registers a cleanup on parent that cancels self". Both calls
    stand before [newRef] exists and before anything is registered on the
    canceller: cancelling it at that point marks it and runs nothing. *)
Definition linkToSignal (which : LinkedSignal)
           (st : Env Listener SourceCleanup
                 * CancellationSignal CancellerCleanup)
  : Env Listener SourceCleanup * CancellationSignal CancellerCleanup :=
  let '(e, canceller) := st in
  if isCancelled (linked which e)
  then (e, if isCancelled canceller then canceller
           else clear (mark canceller))
  else (with_linked which (store CancelCanceller (linked which e)) e,
        canceller).

(** Modelled from the spec: [new SharedReference(initialValue, signal)]:
    the reference is "destroyed when its owning signal cancels". *)
Definition newSharedReference (initialValue : CoreObservation)
           (st : Env Listener SourceCleanup
                 * CancellationSignal CancellerCleanup) : World :=
  registerOnCanceller FinishNewRef
    {| env := fst st; canceller := snd st; newRef := create initialValue |}.

(** The function handed to [deriveReadOnlyObserver]. *)
Definition transform (e0 : Env nat nat) : World :=
  let e := log TransformSetup (foreign e0) in
  let canceller : CancellationSignal CancellerCleanup := fresh in
  let st := linkToSignal ParentObserverCancelSignal (e, canceller) in
  let st := linkToSignal FnCancelSignal st in
  let '(initialValue, e) := constructCorePlaybackObservation (fst st) in
  let w := newSharedReference initialValue (e, snd st) in
  let w :=
    onUpdate SpeedRef EmitCorePlaybackObservation
             {| clearSignal := Some CancellerSignal;
                emitCurrentValue := Some false |} w in
  let w :=
    onUpdate ObservationRef EmitCorePlaybackObservation
             {| clearSignal := Some CancellerSignal;
                emitCurrentValue := Some false |} w in
  w.

(** Modelled from the spec: [deriveReadOnlyObserver(transform)], section
    4.4: the transform "executes exactly once at derivation time". *)
Definition createCorePlaybackObserver (e0 : Env nat nat) : World :=
  transform e0.

(** *** What happens afterwards *)

(** What the other components do once the observer exists. *)
Inductive Step : Type :=
| SetObservation (observation : Observation)
| SetSpeed (v : Q)
| StorePosition (l : loc) (p : ObservationPosition.t)
| SetInitialPlayPerformed (v : bool)
| UpdateManifest (m : Manifest)
| UpdateBuffers (ms : option (IMediaSourceInterface X))
                (td : option (ITextDisplayer X))
| ListenSource (src : Source) (id : nat)
| ListenNewRef (id : nat)
| Cancel (which : LinkedSignal).

Definition step (s : Step) (w : World) : World :=
  match s with
  | SetObservation o => observationRef_setValue o w
  | SetSpeed v => speed_setValue v w
  | StorePosition l p => with_env (with_heap (write l p (heap (env w))) (env w)) w
  | SetInitialPlayPerformed v =>
      with_env (with_initialPlayPerformed
                  (replaceValue v (initialPlayPerformed (env w))) (env w)) w
  | UpdateManifest m => with_env (with_manifest m (env w)) w
  | UpdateBuffers ms td => with_env (with_buffers ms td (env w)) w
  | ListenSource src id => addSourceListener src (OtherListener id) w
  | ListenNewRef id => with_newRef (addListener id (newRef w)) w
  | Cancel which => cancelLinked which w
  end.

(** The state after the steps [l], first step first. *)
Definition run (l : list Step) (w : World) : World :=
  fold_left (fun acc s => step s acc) l w.

(** *** The properties stated about the builder *)

(** The conditions under which the code corrects the wanted position
    [wanted], for the last period [lastPeriod] ending at [lastEnd]. *)
Definition correctionApplies (observation : Observation) (manifest : Manifest)
           (wanted : Q) (lastPeriod : IPeriod.t) (lastEnd : Q) : Prop :=
  (IManifestMetadata.isDynamic manifest = false
   \/ IManifestMetadata.isLastPeriodKnown manifest = true)
  /\ (exists earlier,
        IManifestMetadata.periods manifest = earlier ++ [lastPeriod])
  /\ IPeriod.end_ lastPeriod = Some lastEnd
  /\ IPeriod.start lastPeriod <= wanted
  /\ lastEnd - 1 <= wanted
  /\ (IPlaybackObservation.buffered observation = []
      \/ exists earlier range,
           IPlaybackObservation.buffered observation = earlier ++ [range]
           /\ snd range < IPlaybackObservation.duration observation - 1).

(** The policy as section 4.6 of the spec words it: the correction is
    for a wanted position "within the last second of that period", that
    is from one second before the period's end up to its end. *)
Definition withinLastSecond (lastPeriod : IPeriod.t) (lastEnd wanted : Q)
  : bool :=
  geb wanted (IPeriod.start lastPeriod)
  && geb wanted (lastEnd - 1)
  && geb lastEnd wanted.

(** The wanted position the spec's wording promises after the builder
    read [observation]. *)
Definition specWantedPosition (observation : Observation)
           (manifest : Manifest) (h : Heap) : Q :=
  let wanted :=
    ObservationPosition.getWanted
      (h (IPlaybackObservation.position observation)) in
  if negb (IManifestMetadata.isDynamic manifest)
     || IManifestMetadata.isLastPeriodKnown manifest
  then
    match lastPeriodOf manifest with
    | Some lastPeriod =>
        match IPeriod.end_ lastPeriod with
        | Some lastEnd =>
            if withinLastSecond lastPeriod lastEnd wanted
               && lastSegmentProbablyNotLoaded observation
            then lastEnd - 1
            else wanted
        | None => wanted
        end
    | None => wanted
    end
  else wanted.

(** The number of registrations of [emitCorePlaybackObservation] in a
    listener list. *)
Definition emitters (l : list Listener) : nat :=
  List.length (filter (Listener_eqb EmitCorePlaybackObservation) l).

(** The subscriptions of the transform are in place: [newRef] accepts
    updates and [emitCorePlaybackObservation] is registered once on each
    source reference that is not disposed. *)
Definition subscribed (w : World) : Prop :=
  disposed (newRef w) = false
  /\ (disposed (speed (env w)) = false ->
      emitters (listeners (speed (env w))) = 1%nat)
  /\ (disposed (observationRef (env w)) = false ->
      emitters (listeners (observationRef (env w))) = 1%nat).

(** As long as the canceller is not cancelled, the subscriptions are in
    place. *)
Definition wired (w : World) : Prop :=
  isCancelled (canceller w) = false -> subscribed w.

(** The canceller follows the two signals it is linked to: it is
    cancelled exactly when one of them is, and a signal that is still
    active holds the cleanup that cancels it. *)
Definition linksHeld (w : World) : Prop :=
  isCancelled (canceller w)
  = cancelled (parentObserverCancelSignal (env w))
    || cancelled (fnCancelSignal (env w))
  /\ (forall which,
         cancelled (linked which (env w)) = false ->
         In CancelCanceller (cleanups (linked which (env w)))).

(** Two states with the same canceller and linked signals, the same
    listeners on the source references and the same disposal flags. *)
Definition sameWiring (w w' : World) : Prop :=
  canceller w' = canceller w
  /\ parentObserverCancelSignal (env w') = parentObserverCancelSignal (env w)
  /\ fnCancelSignal (env w') = fnCancelSignal (env w)
  /\ listeners (speed (env w')) = listeners (speed (env w))
  /\ listeners (observationRef (env w'))
     = listeners (observationRef (env w))
  /\ disposed (newRef w') = disposed (newRef w)
  /\ disposed (speed (env w')) = disposed (speed (env w))
  /\ disposed (observationRef (env w'))
     = disposed (observationRef (env w)).

(** An update of one of the two source references. *)
Inductive Update : Type :=
| UpdateSpeed (v : Q)
| UpdateObservation (observation : Observation).

Definition stepOf (u : Update) : Step :=
  match u with
  | UpdateSpeed v => SetSpeed v
  | UpdateObservation o => SetObservation o
  end.

(** The update is accepted: the reference is not disposed. *)
Definition accepted (u : Update) (w : World) : Prop :=
  match u with
  | UpdateSpeed _ => disposed (speed (env w)) = false
  | UpdateObservation _ => disposed (observationRef (env w)) = false
  end.

(** The state once the new value is stored and before any listener is
    called. *)
Definition stored (u : Update) (w : World) : World :=
  match u with
  | UpdateSpeed v =>
      with_env (with_speed (replaceValue v (speed (env w))) (env w)) w
  | UpdateObservation o =>
      with_env (with_observationRef
                  (replaceValue o (observationRef (env w))) (env w)) w
  end.

(** The update [u] triggers exactly one recomputation: one core
    observation is constructed from the current values of the references
    and set on [newRef], and the transform's body does not run again. *)
Definition recomputesOnce (u : Update) (w : World) : Prop :=
  let core := fst (constructCorePlaybackObservation (env (stored u w))) in
  step (stepOf u) w = emitCorePlaybackObservation (stored u w)
  /\ trace (env (step (stepOf u) w))
     = Published core :: Constructed :: trace (env w)
  /\ value (newRef (step (stepOf u) w)) = core
  /\ ICorePlaybackObservation.speed core = value (speed (env (stored u w)))
  /\ ICorePlaybackObservation.position core
     = IPlaybackObservation.position
         (value (observationRef (env (stored u w)))).

End WithCollaborators.

Arguments heap {X L C}.
Arguments manifest {X L C}.
Arguments mediaSource {X L C}.
Arguments textDisplayer {X L C}.
Arguments initialPlayPerformed {X L C}.
Arguments speed {X L C}.
Arguments observationRef {X L C}.
Arguments parentObserverCancelSignal {X L C}.
Arguments fnCancelSignal {X L C}.
Arguments trace {X L C}.
Arguments with_heap {X L C}.
Arguments log {X L C}.
Arguments with_manifest {X L C}.
Arguments with_buffers {X L C}.
Arguments with_initialPlayPerformed {X L C}.
Arguments with_speed {X L C}.
Arguments with_observationRef {X L C}.
Arguments linked {X L C}.
Arguments with_linked {X L C}.
Arguments constructCorePlaybackObservation {X} autoPlay {L C}.
Arguments lastPeriodOf {X}.
Arguments lastSegmentProbablyNotLoaded {X}.
Arguments forceWantedPositionOf {X}.
Arguments updateWantedPositionIfAfterManifest {X}.
Arguments env {X}.
Arguments canceller {X}.
Arguments newRef {X}.
Arguments with_env {X}.
Arguments with_canceller {X}.
Arguments with_newRef {X}.
Arguments newRef_setValue {X}.
Arguments emitCorePlaybackObservation {X}.
Arguments trigger {X}.
Arguments addSourceListener {X}.
Arguments removeSourceListener {X}.
Arguments runCancellerCleanup {X}.
Arguments cancelCanceller {X}.
Arguments runSourceCleanup {X}.
Arguments cancelLinked {X}.
Arguments registerOnCanceller {X}.
Arguments sourceDisposed {X}.
Arguments onUpdate {X}.
Arguments speed_setValue {X}.
Arguments observationRef_setValue {X}.
Arguments foreign {X}.
Arguments linkToSignal {X}.
Arguments newSharedReference {X}.
Arguments transform {X}.
Arguments createCorePlaybackObserver {X}.
Arguments SetObservation {X}.
Arguments SetSpeed {X}.
Arguments StorePosition {X}.
Arguments SetInitialPlayPerformed {X}.
Arguments UpdateManifest {X}.
Arguments UpdateBuffers {X}.
Arguments ListenSource {X}.
Arguments ListenNewRef {X}.
Arguments Cancel {X}.
Arguments step {X}.
Arguments run {X}.
Arguments correctionApplies {X}.
Arguments specWantedPosition {X}.
Arguments subscribed {X}.
Arguments wired {X}.
Arguments sameWiring {X}.
Arguments linksHeld {X}.
Arguments UpdateSpeed {X}.
Arguments UpdateObservation {X}.
Arguments stepOf {X}.
Arguments accepted {X}.
Arguments stored {X}.
Arguments recomputesOnce {X}.

End CoreObserver.

(** ** [parseStyleBlocks] *)
Module ParseStyleBlocks.

Local Open Scope string_scope.

(** JavaScript strings are modelled by [string]: sequences of 8-bit
    characters. Strings with code units above 255 are left out of the
    model. *)

(** [s.length === 0]; a string is truthy when it is not empty. *)
Definition isEmpty (s : string) : bool :=
  match s with
  | EmptyString => true
  | String _ _ => false
  end.

(** What is left of [s] after the literal [p], when [s] starts with it. *)
Fixpoint stripPrefix (p s : string) : option string :=
  match p with
  | EmptyString => Some s
  | String a p' =>
      match s with
      | String b s' => if Ascii.eqb a b then stripPrefix p' s' else None
      | EmptyString => None
      end
  end.

(** [hay.match(/needle/)] is not [null], for a regular expression that
    is a literal: [needle] occurs somewhere in [hay]. The two such
    expressions of the function are [/::cue {/] and [/}/]. *)
Fixpoint contains (needle hay : string) {struct hay} : bool :=
  match stripPrefix needle hay with
  | Some _ => true
  | None =>
      match hay with
      | String _ rest => contains needle rest
      | EmptyString => false
      end
  end.

(** The characters the dot of a regular expression does not match. *)
Definition isLineTerminator (c : ascii) : bool :=
  Ascii.eqb c "010" || Ascii.eqb c "013".

(** [(.*?)\)(?:,| {)] from the start of [s]: the capture is the shortest
    run of characters other than line terminators that is followed by
    [),] or by [) {]. *)
Fixpoint lazyClassName (s : string) : option string :=
  match stripPrefix ")," s, stripPrefix ") {" s with
  | None, None =>
      match s with
      | String c rest =>
          if isLineTerminator c then None
          else option_map (String c) (lazyClassName rest)
      | EmptyString => None
      end
  | _, _ => Some ""
  end.

(** [\.?(.*?)\)(?:,| {)] from the start of [s]: the optional dot is taken
    first, and given back when no match follows. *)
Definition afterCueOpen (s : string) : option string :=
  match s with
  | String "." rest =>
      match lazyClassName rest with
      | Some className => Some className
      | None => lazyClassName s
      end
  | _ => lazyClassName s
  end.

(** [line.match(/::cue\(\.?(.*?)\)(?:,| {)/)]: [None] for [null], and
    otherwise the capture, element [1] of the match, at the leftmost
    position where the expression matches. *)
Fixpoint matchCueClass (line : string) : option string :=
  match
    match stripPrefix "::cue(" line with
    | Some s => afterCueOpen s
    | None => None
    end
  with
  | Some className => Some className
  | None =>
      match line with
      | String _ rest => matchCueClass rest
      | EmptyString => None
      end
  end.

(** A name made of neither line terminators nor closing parentheses. *)
Fixpoint isPlainName (name : string) : bool :=
  match name with
  | String c rest =>
      negb (isLineTerminator c) && negb (Ascii.eqb c ")")
      && isPlainName rest
  | EmptyString => true
  end.

(** [IStyleElements]: the own properties of the object, by class name. *)
Definition IStyleElements : Type := string -> option string.

(** [classes[className] = value] *)
Definition setClass (className value : string) (classes : IStyleElements)
  : IStyleElements :=
  fun name => if String.eqb name className then Some value else classes name.

(** The object the function returns. *)
Record Styles : Type := {
  classes : IStyleElements;
  global : string
}.

(** What a run of the model ends with: the styles parsed so far, an input
    the model does not cover, or a loop that was stopped before its end. *)
Inductive Outcome : Type :=
| Parsed (styles : Styles)
| OutsideModel
| OutOfFuel.

(** [styleBlock[index] &&
     !(styleBlock[index].match(/}/) || styleBlock[index].length === 0)] *)
Definition isStyleLine (line : string) : bool :=
  negb (isEmpty line) && negb (contains "}" line || isEmpty line).

(** The two loops that append lines to [global] and to [styleContent]:
    [lines] are the lines of [styleBlock] from [index] on, [acc] is the
    text so far. The result is the text and the lines from the new
    [index] on. *)
Fixpoint collectStyle (lines : list string) (acc : string)
  : string * list string :=
  match lines with
  | line :: rest =>
      if isStyleLine line then collectStyle rest (acc ++ line)
      else (acc, lines)
  | nil => (acc, nil)
  end.

(** The loop that pushes class names: it stops at the first line that
    is missing, empty, or that the expression does not match. *)
Fixpoint collectClassNames (lines : list string) (classNames : list string)
  : list string * list string :=
  match lines with
  | line :: rest =>
      if isEmpty line then (classNames, lines)
      else
        match matchCueClass line with
        | Some className =>
            collectClassNames rest (classNames ++ className :: nil)%list
        | None => (classNames, lines)
        end
  | nil => (classNames, nil)
  end.

Section WithDefaults.

(** The object [createDefaultStyleElements()] returns. *)
Variable createDefaultStyleElements : IStyleElements.

(** The property names [Object.prototype] defines. Reading [classes] at
    such a name that is no own property gives an inherited value, which
    the model does not cover. *)
Variable inheritedProperty : string -> bool.

(** The body of [classNames.forEach]. *)
Definition addStyle (styleContent : string) (classes : IStyleElements)
           (className : string) : option IStyleElements :=
  match classes className with
  | Some styleElement =>
      if isEmpty styleElement
      then Some (setClass className styleContent classes)
      else Some (setClass className (styleElement ++ styleContent) classes)
  | None =>
      if inheritedProperty className then None
      else Some (setClass className styleContent classes)
  end.

(** [classNames.forEach(...)] *)
Fixpoint addStyles (classNames : list string) (styleContent : string)
         (classes : IStyleElements) : option IStyleElements :=
  match classNames with
  | className :: rest =>
      match addStyle styleContent classes className with
      | Some classes' => addStyles rest styleContent classes'
      | None => None
      end
  | nil => Some classes
  end.

(** [while (index < styleBlock.length) { ... index++; }]: [lines] are the
    lines of [styleBlock] from [index] on, and each turn of the loop uses
    one unit of [fuel]. *)
Fixpoint blockLoop (fuel : nat) (lines : list string) (styles : Styles)
  : Outcome :=
  match lines with
  | nil => Parsed styles
  | line :: rest =>
      match fuel with
      | O => OutOfFuel
      | S fuel' =>
          if contains "::cue {" line then
            let '(global', lines') := collectStyle rest (global styles) in
            blockLoop fuel' (List.tl lines')
                      {| classes := classes styles; global := global' |}
          else
            let '(classNames, lines') := collectClassNames lines nil in
            let '(styleContent, lines'') := collectStyle lines' "" in
            match addStyles classNames styleContent (classes styles) with
            | Some classes' =>
                blockLoop fuel' (List.tl lines'')
                          {| classes := classes'; global := global styles |}
            | None => OutsideModel
            end
      end
  end.

(** The body of [styleBlocks.forEach]: [index] starts at 1, and the loop
    has as much fuel as the block has lines. *)
Definition parseStyleBlock (styleBlock : list string) (styles : Styles)
  : Outcome :=
  if Nat.leb 2 (List.length styleBlock)
  then blockLoop (List.length styleBlock) (List.skipn 1 styleBlock) styles
  else Parsed styles.

(** [styleBlocks.forEach(...)], from the styles [start]. *)
Definition parseFrom (start : Outcome) (styleBlocks : list (list string))
  : Outcome :=
  fold_left (fun acc styleBlock =>
               match acc with
               | Parsed styles => parseStyleBlock styleBlock styles
               | stopped => stopped
               end)
            styleBlocks start.

Definition parseStyleBlocks (styleBlocks : list (list string)) : Outcome :=
  parseFrom (Parsed {| classes := createDefaultStyleElements; global := "" |})
            styleBlocks.

End WithDefaults.

(** Inputs the model covers for sure: in no block does a line after the
    first name, in a selector, a class that [Object.prototype] defines.
    (Other inputs are covered as well when each such class is an own
    property of the classes object by the time it is named.) *)
Definition namesNoInherited (inheritedProperty : string -> bool)
           (styleBlocks : list (list string)) : bool :=
  forallb (fun styleBlock =>
             forallb (fun line =>
                        match matchCueClass line with
                        | Some className => negb (inheritedProperty className)
                        | None => true
                        end)
                     (List.skipn 1 styleBlock))
          styleBlocks.

End ParseStyleBlocks.

(** ** Concrete scenarios *)
Module Scenarios.
Import Js Reference Cancellation.

(** *** ISOBMFF timing *)

(** A buffer in which neither a [tfdt] nor a [trun] box is found: both
    readers answer [-1]. *)
Definition noBox (buffer : IsobmffTiming.Uint8Array) : Q := -1.

(** A segment announced at time 0 with no known duration. *)
Definition openSegment : IsobmffTiming.ISegment.t :=
  {| IsobmffTiming.ISegment.time := Some 0;
     IsobmffTiming.ISegment.duration := None;
     IsobmffTiming.ISegment.timescale := 1;
     IsobmffTiming.ISegment.timestampOffset := None |}.

(** A reader that finds a base decode time of 90000. *)
Definition tfdtAt90000 (buffer : IsobmffTiming.Uint8Array) : Q := 90000.

Definition initInfos90k : IsobmffTiming.IChunkTimingInfos.t :=
  {| IsobmffTiming.IChunkTimingInfos.time := 0;
     IsobmffTiming.IChunkTimingInfos.duration := None;
     IsobmffTiming.IChunkTimingInfos.timescale := 90000 |}.

(** *** The worker observer *)

(** An observer for content "A" whose own signal is signal 0. *)
Definition observerA : WorkerObserver.WorkerPlaybackObserver :=
  {| WorkerObserver._contentId := "A";
     WorkerObserver._cancelSignal := 0%nat |}.

(** Observations are numbered; the reference holds observation 7, has
    one listener (callback 1), and no signal is cancelled. *)
Definition workerState : WorkerObserver.State nat :=
  {| WorkerObserver.src :=
       {| value := 7%nat; listeners := [1%nat]; disposed := false |};
     WorkerObserver.signals := fun _ => fresh;
     WorkerObserver.outbox := [];
     WorkerObserver.calls := [] |}.

(** A message for content "B". *)
Definition messageForB : WorkerObserver.ObservationMessage nat :=
  {| WorkerObserver.messageContentId := "B";
     WorkerObserver.messageValue := 8%nat |}.

(** *** The core observer *)
Import CoreObserver.

(** Collaborators with nothing to say: the statuses and buffers carry no
    data, and the manifest stores its maximum safe position. *)
Definition plain : Collaborators :=
  {| IRebufferingStatus := unit;
     IFreezingStatus := unit;
     IMediaSourceInterface := unit;
     ITextDisplayer := unit;
     BufferedData := unit;
     ManifestInternals := Q;
     getMaximumSafePosition := fun m => IManifestMetadata.internals m;
     getBufferedDataPerMediaBuffer := fun _ _ => tt |}.

(** A finished content: one period [0, 100). *)
Definition finishedManifest : IManifestMetadata.t (ManifestInternals plain) :=
  {| IManifestMetadata.isDynamic := false;
     IManifestMetadata.isLastPeriodKnown := true;
     IManifestMetadata.periods :=
       [{| IPeriod.start := 0; IPeriod.end_ := Some 100 |}];
     IManifestMetadata.internals := (100 : ManifestInternals plain) |}.

(** An observation of duration 100 whose position object is at address 0
    and that has buffered [ranges]. *)
Definition observationWith (ranges : TimeRanges)
  : IPlaybackObservation.t plain :=
  {| IPlaybackObservation.bufferGap := 0;
     IPlaybackObservation.position := 0%nat;
     IPlaybackObservation.duration := 100;
     IPlaybackObservation.rebuffering := (tt : IRebufferingStatus plain);
     IPlaybackObservation.freezing := (tt : IFreezingStatus plain);
     IPlaybackObservation.paused := false;
     IPlaybackObservation.readyState := 4;
     IPlaybackObservation.buffered := ranges |}.

(** A heap in which every position object wants position [wanted]. *)
Definition heapWanting (wanted : Q) : Heap :=
  fun _ => {| ObservationPosition.current := 90;
              ObservationPosition.wanted := wanted |}.

(** The same content while it is still live: the end of its last period
    may still move. *)
Definition liveManifest : IManifestMetadata.t (ManifestInternals plain) :=
  {| IManifestMetadata.isDynamic := true;
     IManifestMetadata.isLastPeriodKnown := false;
     IManifestMetadata.periods :=
       [{| IPeriod.start := 0; IPeriod.end_ := Some 100 |}];
     IManifestMetadata.internals := (95 : ManifestInternals plain) |}.

(** The environment of property P6, for the manifest [m]: wanted position
    [wanted], buffered [ranges], initial play not performed, speed 1, the
    parent signal active and [fnCancelSignal] as [fnCancelled] says. *)
Definition environment (m : IManifestMetadata.t (ManifestInternals plain))
           (wanted : Q) (ranges : TimeRanges) (fnCancelled : bool)
  : Env plain nat nat :=
  {| heap := heapWanting wanted;
     manifest := m;
     mediaSource := None;
     textDisplayer := None;
     initialPlayPerformed := create false;
     speed := create 1;
     observationRef := create (observationWith ranges);
     parentObserverCancelSignal := fresh;
     fnCancelSignal := {| cancelled := fnCancelled; cleanups := [] |};
     trace := [] |}.

End Scenarios.

(** ** The builder once it is cancelled *)
Module CoreTeardown.
Import Reference Cancellation CoreObserver.

(** What the transform registers on [canceller.signal], in registration
    order: the disposal of [newRef], which that signal owns, then the
    removal of each of the two listeners, through the [clearSignal] of
    their [onUpdate] calls, for the source references that are not
    disposed. *)
Definition registeredCleanups {X : Collaborators} (w : World X)
  : list CancellerCleanup :=
  FinishNewRef
  :: (if disposed (speed (env w)) then []
      else [Unlisten SpeedRef EmitCorePlaybackObservation])
  ++ (if disposed (observationRef (env w)) then []
      else [Unlisten ObservationRef EmitCorePlaybackObservation]).

(** What a cancellation releases: [newRef] is disposed and
    [emitCorePlaybackObservation] is registered on neither source
    reference. *)
Definition released {X : Collaborators} (w : World X) : Prop :=
  disposed (newRef w) = true
  /\ emitters (listeners (speed (env w))) = 0%nat
  /\ emitters (listeners (observationRef (env w))) = 0%nat.

(** Either the canceller is cancelled, [newRef] is disposed and the two
    listeners are unregistered, or the canceller still holds its
    cleanups and a disposed source reference holds no listener of the
    transform. *)
Definition tornDown {X : Collaborators} (w : World X) : Prop :=
  if isCancelled (canceller w) then released w
  else cleanups (canceller w) = registeredCleanups w
       /\ (disposed (speed (env w)) = true ->
           emitters (listeners (speed (env w))) = 0%nat)
       /\ (disposed (observationRef (env w)) = true ->
           emitters (listeners (observationRef (env w))) = 0%nat).

End CoreTeardown.

(** ** Further concrete situations *)
Module MoreScenarios.
Import Js.

(** *** ISOBMFF timing *)

(** A reader that finds a [trun] duration of 3. *)
Definition trunOfThree (buffer : IsobmffTiming.Uint8Array) : Q := 3.

(** *** WebVTT style blocks *)
Local Open Scope string_scope.

(** Two of the colour classes every parse starts from. *)
Definition colourClasses : ParseStyleBlocks.IStyleElements :=
  fun className =>
    if String.eqb className "white" then Some "color: #ffffff;"
    else if String.eqb className "bg_black"
         then Some "background-color: #000000;"
         else None.

(** Property names every object inherits from [Object.prototype]. *)
Definition objectPrototype (name : string) : bool :=
  existsb (String.eqb name)
          ["constructor"; "hasOwnProperty"; "isPrototypeOf";
           "propertyIsEnumerable"; "toLocaleString"; "toString"; "valueOf";
           "__proto__"; "__defineGetter__"; "__defineSetter__";
           "__lookupGetter__"; "__lookupSetter__"].

(** The styles every parse starts from. *)
Definition initialStyles : ParseStyleBlocks.Styles :=
  {| ParseStyleBlocks.classes := colourClasses;
     ParseStyleBlocks.global := "" |}.

(** A block with one global rule. *)
Definition globalBlock : list string :=
  ["STYLE"; "::cue {"; "color: red;"; "font-size: 2em;"; "}"].

(** A block with one rule for the classes [a] and [white]. *)
Definition classBlock : list string :=
  ["STYLE"; "::cue(.a),"; "::cue(white) {"; "font-style: italic;"; "}"].

End MoreScenarios.

(* ===================================================================== *)
(** * Part II: theorems *)
(* ===================================================================== *)

(** ** JavaScript operators *)
Module JsFacts.
Import Js.

Lemma ltb_lt a b : ltb a b = true <-> a < b.
Proof.
  unfold ltb. rewrite negb_true_iff, <- not_true_iff_false, Qle_bool_iff.
  split; [apply Qnot_le_lt | apply Qlt_not_le].
Qed.

Lemma ltb_ge a b : ltb a b = false <-> b <= a.
Proof.
  unfold ltb. rewrite negb_false_iff. apply Qle_bool_iff.
Qed.

Lemma geb_le a b : geb a b = true <-> b <= a.
Proof. unfold geb. apply Qle_bool_iff. Qed.

Lemma geb_lt a b : geb a b = false <-> a < b.
Proof.
  unfold geb. rewrite <- not_true_iff_false, Qle_bool_iff.
  split; [apply Qnot_le_lt | apply Qlt_not_le].
Qed.

Lemma or_else_zero a d : a == 0 -> or_else (Some a) d = d.
Proof.
  intros H. unfold or_else, truthy.
  apply Qeq_bool_iff in H. now rewrite H.
Qed.

End JsFacts.

(** ** [getISOBMFFTimingInfos] *)
Module IsobmffTimingFacts.
Import Js JsFacts IsobmffTiming.

Section WithParsers.

Variable getTrackFragmentDecodeTime : Uint8Array -> Q.
Variable getDurationFromTrun : Uint8Array -> Q.

Local Abbreviation timingInfos dev :=
  (getISOBMFFTimingInfos dev getTrackFragmentDecodeTime getDurationFromTrun).

(** A chunked call answers [null] exactly when the base decode time is
    negative or [initInfos] is missing. *)
Lemma chunked_null_iff dev buffer segment sidxSegments initInfos :
  timingInfos dev buffer true segment sidxSegments initInfos = Returns None
  <-> (getTrackFragmentDecodeTime buffer < 0 \/ initInfos = None).
Proof.
  unfold getISOBMFFTimingInfos.
  destruct (ltb (getTrackFragmentDecodeTime buffer) 0) eqn:Hneg.
  - apply ltb_lt in Hneg. split; auto.
  - apply ltb_ge in Hneg. destruct initInfos as [init|].
    + split; [discriminate|].
      intros [Hlt | Hnone]; [|discriminate].
      exfalso. exact (Qlt_not_le _ _ Hlt Hneg).
    + split; auto.
Qed.

(** Otherwise it answers the base decode time, no duration, and the
    timescale of [initInfos]. *)
Lemma chunked_value dev buffer segment sidxSegments init :
  0 <= getTrackFragmentDecodeTime buffer ->
  timingInfos dev buffer true segment sidxSegments (Some init)
  = Returns (Some {| IChunkTimingInfos.time :=
                       getTrackFragmentDecodeTime buffer;
                     IChunkTimingInfos.duration := None;
                     IChunkTimingInfos.timescale :=
                       IChunkTimingInfos.timescale init |}).
Proof.
  intros Hpos. unfold getISOBMFFTimingInfos.
  apply ltb_ge in Hpos. now rewrite Hpos.
Qed.

(** The [__DEV__] assertions only ever replace the result by an
    exception. *)
Lemma assert_cases {A : Type} (cond : bool) (k : Completion A) :
  assert cond k = k \/ assert cond k = Throws "invalid assertion".
Proof. destruct cond; [left | right]; reflexivity. Qed.

(** The shape of every non-chunked call: the record built on the last
    lines of the function, behind the assertions when [__DEV__] is set. *)
Lemma nonchunked_shape dev buffer segment sidxSegments initInfos :
  exists startTime duration,
    timingInfos dev buffer false segment sidxSegments initInfos
    = (let result :=
         Returns (Some {| IChunkTimingInfos.timescale :=
                            chosenTimescale segment initInfos;
                          IChunkTimingInfos.time := or_else startTime 0;
                          IChunkTimingInfos.duration :=
                            Some (or_else duration 0) |}) in
       if dev
       then assert (negb (is_null startTime))
                   (assert (negb (is_null duration)) result)
       else result).
Proof.
  unfold getISOBMFFTimingInfos.
  destruct (segmentScaled segment (chosenTimescale segment initInfos))
    as [[maxDelta segmentStart] segmentDuration].
  eexists. eexists. reflexivity.
Qed.

(** [startTime] and [duration] as they stand before the assertions. *)
Lemma nonchunked_unfolded dev buffer segment sidxSegments initInfos :
  timingInfos dev buffer false segment sidxSegments initInfos
  = (let _sidxSegments :=
       match sidxSegments with Some l => l | None => [] end in
     let timescale := chosenTimescale segment initInfos in
     let scaled := segmentScaled segment timescale in
     let startTime :=
       resolveStartTime
         segment timescale _sidxSegments (snd (fst scaled))
         (if geb (getTrackFragmentDecodeTime buffer) 0
          then Some (withTimestampOffset
                       segment timescale (getTrackFragmentDecodeTime buffer))
          else None) in
     let duration :=
       resolveDuration
         _sidxSegments (snd scaled)
         (if geb (getDurationFromTrun buffer) 0 &&
             match snd scaled with
             | None => true
             | Some sd =>
                 Qle_bool (Qabs (getDurationFromTrun buffer - sd))
                          (fst (fst scaled))
             end
          then Some (getDurationFromTrun buffer)
          else None) in
     let result :=
       Returns (Some {| IChunkTimingInfos.timescale := timescale;
                        IChunkTimingInfos.time := or_else startTime 0;
                        IChunkTimingInfos.duration :=
                          Some (or_else duration 0) |}) in
     if dev
     then assert (negb (is_null startTime))
                 (assert (negb (is_null duration)) result)
     else result).
Proof.
  unfold getISOBMFFTimingInfos.
  destruct (segmentScaled segment (chosenTimescale segment initInfos))
    as [[maxDelta segmentStart] segmentDuration].
  reflexivity.
Qed.

(** With no announced time, the scaled segment start is missing or zero. *)
Lemma segmentStart_fallback segment timescale :
  ISegment.time segment = None ->
  or_else (snd (fst (segmentScaled segment timescale))) 0 = 0.
Proof.
  intros Htime. unfold segmentScaled.
  destruct (eqb timescale (ISegment.timescale segment)); cbn [fst snd].
  - now rewrite Htime.
  - rewrite Htime. apply or_else_zero. cbn [or_else]. unfold Qdiv. ring.
Qed.

(** With no announced duration, the scaled segment duration is missing. *)
Lemma segmentDuration_fallback segment timescale :
  ISegment.duration segment = None ->
  snd (segmentScaled segment timescale) = None.
Proof.
  intros Hduration. unfold segmentScaled.
  destruct (eqb timescale (ISegment.timescale segment)); cbn [snd];
    now rewrite Hduration.
Qed.

(** When the start time is missing before the assertions. *)
Lemma resolveStartTime_none segment timescale (sidx : list ISidxSegment.t)
      segmentStart startTime :
  resolveStartTime segment timescale sidx segmentStart startTime = None
  <-> (startTime = None /\ segmentStart = None
       /\ (sidx = nil
           \/ exists first rest,
                sidx = first :: rest /\ ISidxSegment.time first < 0)).
Proof.
  unfold resolveStartTime.
  destruct startTime as [s|]; [split; [discriminate | now intros [? _]]|].
  destruct sidx as [|first rest].
  - split; [now auto | now intros (_ & ? & _)].
  - destruct (geb (ISidxSegment.time first) 0) eqn:E.
    + split; [discriminate|]. intros (_ & _ & [? | (f & r & [= <- <-] & Hlt)]);
        [discriminate|]. apply geb_lt in Hlt. congruence.
    + apply geb_lt in E. split.
      * intros ->. repeat split. right. now exists first, rest.
      * now intros (_ & ? & _).
Qed.

(** When the duration is missing before the assertions. *)
Lemma resolveDuration_none (sidx : list ISidxSegment.t)
      segmentDuration duration :
  resolveDuration sidx segmentDuration duration = None
  <-> (duration = None /\ segmentDuration = None
       /\ (sidx = nil \/ sidxDurationSum sidx < 0)).
Proof.
  unfold resolveDuration.
  destruct duration as [d|]; [split; [discriminate | now intros [? _]]|].
  destruct sidx as [|first rest].
  - split; [now auto | now intros (_ & ? & _)].
  - destruct (geb (sidxDurationSum (first :: rest)) 0) eqn:E.
    + split; [discriminate|]. intros (_ & _ & [? | Hlt]); [discriminate|].
      apply geb_lt in Hlt. congruence.
    + apply geb_lt in E. split; [now auto | now intros (_ & ? & _)].
Qed.

Lemma segmentStart_none segment timescale :
  snd (fst (segmentScaled segment timescale)) = None
  <-> (eqb timescale (ISegment.timescale segment) = true
       /\ ISegment.time segment = None).
Proof.
  unfold segmentScaled.
  destruct (eqb timescale (ISegment.timescale segment)); cbn [fst snd].
  - split; [now auto | now intros [_ ?]].
  - split; [discriminate | now intros [? _]].
Qed.

Lemma segmentDuration_none segment timescale :
  snd (segmentScaled segment timescale) = None
  <-> ISegment.duration segment = None.
Proof.
  unfold segmentScaled.
  destruct (eqb timescale (ISegment.timescale segment)); cbn [snd];
    destruct (ISegment.duration segment); split; auto; discriminate.
Qed.

(** The chosen timescale is the timescale of the segment exactly when
    [initInfos] is missing, or its timescale is 0, or it is the timescale
    of the segment. *)
Lemma chosenTimescale_same segment initInfos :
  eqb (chosenTimescale segment initInfos) (ISegment.timescale segment) = true
  <-> match initInfos with
      | Some init =>
          IChunkTimingInfos.timescale init == 0
          \/ IChunkTimingInfos.timescale init == ISegment.timescale segment
      | None => True
      end.
Proof.
  unfold chosenTimescale, truthy, eqb.
  destruct initInfos as [init|].
  - destruct (Qeq_bool (IChunkTimingInfos.timescale init) 0) eqn:Hzero;
      cbn [negb].
    + apply Qeq_bool_iff in Hzero. split; [now left|].
      intros _. apply Qeq_bool_iff. reflexivity.
    + rewrite Qeq_bool_iff. split; [now right|].
      intros [Hz | Hsame]; [|exact Hsame].
      apply Qeq_bool_iff in Hz. congruence.
  - split; [trivial|]. intros _. apply Qeq_bool_iff. reflexivity.
Qed.

(** [startTime] is [undefined] before the assertions exactly when
    nothing gives it. *)
Lemma startTime_missing_iff buffer segment (sidx : list ISidxSegment.t)
      timescale :
  resolveStartTime
    segment timescale sidx (snd (fst (segmentScaled segment timescale)))
    (if geb (getTrackFragmentDecodeTime buffer) 0
     then Some (withTimestampOffset
                  segment timescale (getTrackFragmentDecodeTime buffer))
     else None)
  = None
  <-> (getTrackFragmentDecodeTime buffer < 0
       /\ ISegment.time segment = None
       /\ eqb timescale (ISegment.timescale segment) = true
       /\ (sidx = nil
           \/ exists first rest,
                sidx = first :: rest /\ ISidxSegment.time first < 0)).
Proof.
  rewrite resolveStartTime_none, segmentStart_none.
  destruct (geb (getTrackFragmentDecodeTime buffer) 0) eqn:E.
  - apply geb_le in E. split; [now intros [? _]|].
    intros [Hlt _]. exfalso. exact (Qlt_not_le _ _ Hlt E).
  - apply geb_lt in E. tauto.
Qed.

(** [duration] is [undefined] before the assertions exactly when nothing
    gives it. *)
Lemma duration_missing_iff buffer segment (sidx : list ISidxSegment.t)
      timescale :
  resolveDuration
    sidx (snd (segmentScaled segment timescale))
    (if geb (getDurationFromTrun buffer) 0 &&
        match snd (segmentScaled segment timescale) with
        | None => true
        | Some sd =>
            Qle_bool (Qabs (getDurationFromTrun buffer - sd))
                     (fst (fst (segmentScaled segment timescale)))
        end
     then Some (getDurationFromTrun buffer)
     else None)
  = None
  <-> (getDurationFromTrun buffer < 0
       /\ ISegment.duration segment = None
       /\ (sidx = nil \/ sidxDurationSum sidx < 0)).
Proof.
  rewrite resolveDuration_none, segmentDuration_none.
  destruct (geb (getDurationFromTrun buffer) 0) eqn:E.
  - apply geb_le in E. split.
    + intros (Hnone & Hseg & _). exfalso.
      apply (segmentDuration_none segment timescale) in Hseg.
      rewrite Hseg in Hnone. discriminate Hnone.
    + intros [Hlt _]. exfalso. exact (Qlt_not_le _ _ Hlt E).
  - apply geb_lt in E. cbn [andb]. tauto.
Qed.

(** C10, as amended. A chunked call answers [null] exactly when the base
    decode time is negative or [initInfos] is missing, and otherwise the
    base decode time, no duration and the timescale of [initInfos]. A
    non-chunked call never answers [null]. In a production build
    ([__DEV__] false) it answers a record whose time and duration are
    numbers; the time is 0 when nothing gives a start time (the base
    decode time is negative, the segment announces no time, and there is
    no sidx segment or the first one has a negative time), and the
    duration is 0 when nothing gives a duration (the [trun] duration is
    negative, the segment announces no duration, and there is no sidx
    segment or the sum of their durations is negative). In a development
    build it throws the assertion error exactly when nothing gives a
    start time and the chosen timescale is the timescale of the segment,
    or nothing gives a duration; otherwise it answers what the production
    build answers. *)
Theorem getISOBMFFTimingInfos_results
        (dev : bool) buffer segment sidxSegments initInfos :
  let chunked :=
    getISOBMFFTimingInfos dev getTrackFragmentDecodeTime getDurationFromTrun
                          buffer true segment sidxSegments initInfos in
  let whole dev' :=
    getISOBMFFTimingInfos dev' getTrackFragmentDecodeTime getDurationFromTrun
                          buffer false segment sidxSegments initInfos in
  let sidx := match sidxSegments with Some l => l | None => [] end in
  let noStartTime :=
    getTrackFragmentDecodeTime buffer < 0
    /\ ISegment.time segment = None
    /\ (sidx = []
        \/ exists first rest,
             sidx = first :: rest /\ ISidxSegment.time first < 0) in
  let noDuration :=
    getDurationFromTrun buffer < 0
    /\ ISegment.duration segment = None
    /\ (sidx = [] \/ sidxDurationSum sidx < 0) in
  let sameTimescale :=
    match initInfos with
    | Some init =>
        IChunkTimingInfos.timescale init == 0
        \/ IChunkTimingInfos.timescale init == ISegment.timescale segment
    | None => True
    end in
  (chunked = Returns None
   <-> (getTrackFragmentDecodeTime buffer < 0 \/ initInfos = None))
  /\ (forall init,
        initInfos = Some init ->
        0 <= getTrackFragmentDecodeTime buffer ->
        chunked
        = Returns (Some {| IChunkTimingInfos.time :=
                             getTrackFragmentDecodeTime buffer;
                           IChunkTimingInfos.duration := None;
                           IChunkTimingInfos.timescale :=
                             IChunkTimingInfos.timescale init |}))
  /\ (exists t d ts,
        whole false
        = Returns (Some {| IChunkTimingInfos.time := t;
                           IChunkTimingInfos.duration := Some d;
                           IChunkTimingInfos.timescale := ts |})
        /\ (noStartTime -> t = 0)
        /\ (noDuration -> d = 0))
  /\ (whole true = Throws "invalid assertion"
      <-> ((noStartTime /\ sameTimescale) \/ noDuration))
  /\ (whole true = Throws "invalid assertion" \/ whole true = whole false)
  /\ (forall dev', whole dev' <> Returns None).
Proof.
  cbv zeta. split; [apply chunked_null_iff|].
  split; [intros init -> Hpos; now apply chunked_value|].
  rewrite !nonchunked_unfolded. cbv zeta.
  set (sidx := match sidxSegments with Some l => l | None => [] end).
  set (ts := chosenTimescale segment initInfos).
  pose proof (startTime_missing_iff buffer segment sidx ts) as Hstart.
  pose proof (duration_missing_iff buffer segment sidx ts) as Hduration.
  pose proof (segmentStart_fallback segment ts) as Hfallback.
  pose proof (chosenTimescale_same segment initInfos) as Hsame.
  fold ts in Hsame.
  set (startTime := resolveStartTime _ _ _ _ _) in *.
  set (duration := resolveDuration _ _ _) in *.
  assert (HnoStart :
            getTrackFragmentDecodeTime buffer < 0
            /\ ISegment.time segment = None
            /\ (sidx = []
                \/ exists first rest,
                     sidx = first :: rest /\ ISidxSegment.time first < 0) ->
            or_else startTime 0 = 0).
  { intros (Hneg & Htime & Hsidx). unfold startTime.
    apply geb_lt in Hneg. rewrite Hneg. cbn [resolveStartTime].
    destruct Hsidx as [-> | (first & rest & -> & Hfirst)];
      [now apply Hfallback|].
    apply geb_lt in Hfirst. rewrite Hfirst. now apply Hfallback. }
  split; [|split; [|split]].
  - exists (or_else startTime 0), (or_else duration 0), ts.
    split; [reflexivity|]. split; [exact HnoStart|].
    intros Hnone. apply Hduration in Hnone. now rewrite Hnone.
  - rewrite <- Hsame, <- Hduration.
    assert (Hstart' :
              startTime = None
              <-> ((getTrackFragmentDecodeTime buffer < 0
                    /\ ISegment.time segment = None
                    /\ (sidx = []
                        \/ exists first rest,
                             sidx = first :: rest
                             /\ ISidxSegment.time first < 0))
                   /\ eqb ts (ISegment.timescale segment) = true))
      by (rewrite Hstart; tauto).
    rewrite <- Hstart'.
    destruct startTime, duration; cbn; split;
      try discriminate; try tauto; try (intros [? | ?]; discriminate).
  - destruct startTime, duration; cbn; auto.
  - intros dev' Hnull.
    destruct (nonchunked_shape dev' buffer segment sidxSegments initInfos)
      as (startTime' & duration' & Hshape).
    rewrite Hshape in Hnull.
    destruct dev', startTime', duration'; discriminate Hnull.
Qed.

(** In a production build, a non-chunked call answers with the timescale
    of [initInfos] when [initInfos] is given with a non-zero timescale,
    and with the timescale of the segment otherwise. *)
Theorem nonchunked_timescale buffer segment sidxSegments initInfos :
  exists t d,
    timingInfos false buffer false segment sidxSegments initInfos
    = Returns
        (Some {| IChunkTimingInfos.time := t;
                 IChunkTimingInfos.duration := Some d;
                 IChunkTimingInfos.timescale :=
                   match initInfos with
                   | Some init =>
                       if Qeq_bool (IChunkTimingInfos.timescale init) 0
                       then ISegment.timescale segment
                       else IChunkTimingInfos.timescale init
                   | None => ISegment.timescale segment
                   end |}).
Proof.
  destruct (nonchunked_shape false buffer segment sidxSegments initInfos)
    as (startTime & duration & Hshape).
  rewrite Hshape. cbv zeta. exists (or_else startTime 0), (or_else duration 0).
  unfold chosenTimescale, truthy.
  destruct initInfos as [init|]; [|reflexivity].
  now destruct (Qeq_bool (IChunkTimingInfos.timescale init) 0).
Qed.

End WithParsers.

(** C10: in a development build, a non-chunked call for which neither the
    container, nor the sidx segments, nor the segment give a duration
    throws the assertion error; it does not fall back to a duration of 0,
    as the production build does on the same input. *)
Lemma getISOBMFFTimingInfos_dev_throws :
  getISOBMFFTimingInfos true Scenarios.noBox Scenarios.noBox
                        [] false Scenarios.openSegment None None
  = Throws "invalid assertion"
  /\ getISOBMFFTimingInfos false Scenarios.noBox Scenarios.noBox
                           [] false Scenarios.openSegment None None
     = Returns (Some {| IChunkTimingInfos.time := 0;
                        IChunkTimingInfos.duration := Some 0;
                        IChunkTimingInfos.timescale := 1 |}).
Proof. split; reflexivity. Qed.

(** The amended statement at work: a chunk whose [tfdt] reads 90000 with
    init data at timescale 90000, and the production fallback. *)
Lemma getISOBMFFTimingInfos_results_witness :
  getISOBMFFTimingInfos false Scenarios.tfdtAt90000 Scenarios.noBox
                        [] true Scenarios.openSegment None
                        (Some Scenarios.initInfos90k)
  = Returns (Some {| IChunkTimingInfos.time := 90000;
                     IChunkTimingInfos.duration := None;
                     IChunkTimingInfos.timescale := 90000 |})
  /\ exists t ts,
       getISOBMFFTimingInfos false Scenarios.noBox Scenarios.noBox
                             [] false Scenarios.openSegment None None
       = Returns (Some {| IChunkTimingInfos.time := t;
                          IChunkTimingInfos.duration := Some 0;
                          IChunkTimingInfos.timescale := ts |}).
Proof.
  split.
  - destruct (getISOBMFFTimingInfos_results
                Scenarios.tfdtAt90000 Scenarios.noBox false []
                Scenarios.openSegment None (Some Scenarios.initInfos90k))
      as (_ & Hvalue & _).
    exact (Hvalue Scenarios.initInfos90k eq_refl ltac:(discriminate)).
  - destruct (getISOBMFFTimingInfos_results
                Scenarios.noBox Scenarios.noBox false []
                Scenarios.openSegment None None)
      as (_ & _ & (t & d & ts & Hrecord & _ & Hduration) & _).
    exists t, ts. rewrite Hrecord.
    rewrite (Hduration (conj eq_refl (conj eq_refl (or_introl eq_refl)))).
    reflexivity.
Defined.

End IsobmffTimingFacts.

(** ** [WorkerPlaybackObserver] *)
Module WorkerObserverFacts.
Import Reference Cancellation WorkerObserver.

Section WithObservation.

Variable IWorkerPlaybackObservation : Type.

Local Abbreviation State := (WorkerObserver.State IWorkerPlaybackObservation).

(** [sendMessage] touches the outbox only. *)
Lemma sendMessage_frame (msg : WorkerMessage.t) (st : State) :
  src (sendMessage msg st) = src st
  /\ signals (sendMessage msg st) = signals st
  /\ calls (sendMessage msg st) = calls st.
Proof. repeat split. Qed.

(** C5: the four direct clock queries answer [undefined] and leave the
    state as it is. *)
Theorem clock_queries_undefined (this : WorkerPlaybackObserver) (st : State) :
  getCurrentTime this st = (None, st)
  /\ getReadyState this st = (None, st)
  /\ getIsPaused this st = (None, st)
  /\ getPlaybackRate this st = (None, st).
Proof. repeat split. Qed.

(** C6: [setPlaybackRate] posts exactly one message, of type
    [UpdatePlaybackRate] with the observer's content identifier and the
    given rate, after the messages already posted; it returns at once and
    changes neither the backing reference, nor a signal, nor the calls
    made to the callbacks. *)
Theorem setPlaybackRate_forwards
        (this : WorkerPlaybackObserver) (playbackRate : Q) (st : State) :
  let st' := snd (setPlaybackRate this playbackRate st) in
  fst (setPlaybackRate this playbackRate st) = tt
  /\ outbox st'
     = outbox st ++ [{| WorkerMessage.type := UpdatePlaybackRate;
                        WorkerMessage.contentId := _contentId this;
                        WorkerMessage.value := playbackRate |}]
  /\ List.length (outbox st') = S (List.length (outbox st))
  /\ src st' = src st
  /\ signals st' = signals st
  /\ calls st' = calls st.
Proof.
  cbv zeta. cbn [setPlaybackRate fst snd sendMessage outbox src signals calls].
  repeat split. rewrite length_app. cbn. lia.
Qed.

(** What [onUpdate] does on a reference that is not disposed, when its
    [clearSignal] is absent or active. *)
Lemma onUpdate_registers (cb : CallbackId) (options : OnUpdateOptions SignalId)
      (st : State) :
  disposed (src st) = false ->
  match clearSignal options with
  | Some s => isCancelled (signals st s) = false
  | None => True
  end ->
  listeners (src (onUpdate cb options st)) = listeners (src st) ++ [cb]
  /\ calls (onUpdate cb options st)
     = calls st ++ (if emits options then [(cb, value (src st))] else [])
  /\ match clearSignal options with
     | Some s =>
         cleanups (signals (onUpdate cb options st) s)
         = cleanups (signals st s) ++ [Unlisten cb]
         /\ isCancelled (signals (onUpdate cb options st) s) = false
         /\ forall s', s' <> s ->
                       signals (onUpdate cb options st) s' = signals st s'
     | None => signals (onUpdate cb options st) = signals st
     end.
Proof.
  intros Hlive Hactive. unfold onUpdate. rewrite Hlive.
  destruct (clearSignal options) as [s|].
  - rewrite Hactive. destruct (emits options);
      cbn; rewrite ?app_nil_r, ?Nat.eqb_refl;
      (split; [reflexivity|]); (split; [reflexivity|]);
      (split; [reflexivity|]); (split; [exact Hactive|]);
      intros s' Hs'; apply Nat.eqb_neq in Hs'; now rewrite Hs'.
  - destruct (emits options); cbn; rewrite ?app_nil_r; repeat split.
Qed.

(** On a disposed reference [onUpdate] registers nothing. *)
Lemma onUpdate_disposed (cb : CallbackId) (options : OnUpdateOptions SignalId)
      (st : State) :
  disposed (src st) = true ->
  src (onUpdate cb options st) = src st
  /\ signals (onUpdate cb options st) = signals st.
Proof.
  intros Hdisposed. unfold onUpdate. rewrite Hdisposed.
  destruct (clearSignal options) as [s|];
    [destruct (isCancelled (signals st s))|];
    destruct (emits options); split; reflexivity.
Qed.

(** C7: [listen] is a no-op when the observer's own signal is already
    cancelled, and when [options.clearSignal] is given and already
    cancelled. Otherwise it is the [onUpdate] of the backing reference,
    with [options.includeLastObservation] passed as [emitCurrentValue]
    and [options.clearSignal] passed as [clearSignal] (both absent when
    [options] is). On a backing reference that is not disposed, the
    callback then ends the listener list, it is called at once with the
    current value exactly when [includeLastObservation] is true, and the
    cleanup that unregisters it ends the cleanups of the given
    [clearSignal], which stays active; no other signal changes. On a
    disposed backing reference nothing is registered, neither on the
    reference nor on a signal. *)
Theorem listen_registers_unless_cancelled
        (this : WorkerPlaybackObserver) (cb : CallbackId)
        (options : option ListenOptions) (st : State) :
  let st' := snd (listen this cb options st) in
  (isCancelled (signals st (_cancelSignal this)) = true ->
   listen this cb options st = (tt, st))
  /\ (forall o s,
        options = Some o ->
        listenClearSignal o = Some s ->
        isCancelled (signals st s) = true ->
        listen this cb options st = (tt, st))
  /\ (isCancelled (signals st (_cancelSignal this)) = false ->
      (options = None ->
       listen this cb options st
       = (tt, onUpdate cb {| clearSignal := None;
                             emitCurrentValue := None |} st))
      /\ (forall o,
            options = Some o ->
            (forall s, listenClearSignal o = Some s ->
                       isCancelled (signals st s) = false) ->
            listen this cb options st
            = (tt, onUpdate cb {| clearSignal := listenClearSignal o;
                                  emitCurrentValue :=
                                    includeLastObservation o |} st)))
  /\ (isCancelled (signals st (_cancelSignal this)) = false ->
      disposed (src st) = false ->
      (options = None ->
       listeners (src st') = listeners (src st) ++ [cb]
       /\ calls st' = calls st
       /\ signals st' = signals st)
      /\ (forall o,
            options = Some o ->
            let called :=
              match includeLastObservation o with
              | Some true => [(cb, value (src st))]
              | _ => []
              end in
            (listenClearSignal o = None ->
             listeners (src st') = listeners (src st) ++ [cb]
             /\ calls st' = calls st ++ called
             /\ signals st' = signals st)
            /\ (forall s,
                  listenClearSignal o = Some s ->
                  isCancelled (signals st s) = false ->
                  listeners (src st') = listeners (src st) ++ [cb]
                  /\ calls st' = calls st ++ called
                  /\ cleanups (signals st' s)
                     = cleanups (signals st s) ++ [Unlisten cb]
                  /\ isCancelled (signals st' s) = false
                  /\ forall s', s' <> s -> signals st' s' = signals st s')))
  /\ (disposed (src st) = true ->
      src st' = src st /\ signals st' = signals st).
Proof.
  cbv zeta.
  assert (Hnone :
            isCancelled (signals st (_cancelSignal this)) = false ->
            listen this cb None st
            = (tt, onUpdate cb {| clearSignal := None;
                                  emitCurrentValue := None |} st)).
  { intros Hown. unfold listen, clearSignalCancelled. cbn [optClearSignal].
    now rewrite Hown. }
  assert (Hsome :
            forall o,
              isCancelled (signals st (_cancelSignal this)) = false ->
              (forall s, listenClearSignal o = Some s ->
                         isCancelled (signals st s) = false) ->
              listen this cb (Some o) st
              = (tt, onUpdate cb {| clearSignal := listenClearSignal o;
                                    emitCurrentValue :=
                                      includeLastObservation o |} st)).
  { intros o Hown Hclear. unfold listen, clearSignalCancelled.
    cbn [optClearSignal optIncludeLastObservation]. rewrite Hown.
    destruct (listenClearSignal o) as [s|] eqn:Hs; [|reflexivity].
    now rewrite (Hclear s eq_refl). }
  split; [|split; [|split; [|split]]].
  - intros Hown. unfold listen. now rewrite Hown.
  - intros o s -> Hs Hcancelled. unfold listen, clearSignalCancelled.
    cbn [optClearSignal]. rewrite Hs, Hcancelled.
    now rewrite orb_true_r.
  - intros Hown. split.
    + intros ->. now apply Hnone.
    + intros o -> Hclear. now apply Hsome.
  - intros Hown Hlive. split.
    + intros ->. rewrite (Hnone Hown). cbn [snd].
      destruct (onUpdate_registers
                  cb {| clearSignal := None; emitCurrentValue := None |}
                  st Hlive I) as (Hl & Hc & Hs).
      cbn [clearSignal emits emitCurrentValue] in Hc, Hs.
      rewrite app_nil_r in Hc. now repeat split.
    + intros o ->. split.
      * intros Hno.
        rewrite (Hsome o Hown) by (intros s Hs; congruence). cbn [snd].
        rewrite Hno.
        destruct (onUpdate_registers
                    cb {| clearSignal := None;
                          emitCurrentValue := includeLastObservation o |}
                    st Hlive I) as (Hl & Hc & Hs).
        cbn [clearSignal] in Hs.
        split; [exact Hl|]. split; [|exact Hs].
        rewrite Hc. unfold emits. cbn [emitCurrentValue].
        destruct (includeLastObservation o) as [[|]|]; reflexivity.
      * intros s Hgiven Hactive.
        rewrite (Hsome o Hown) by (intros s0 Hs0; congruence). cbn [snd].
        rewrite Hgiven.
        destruct (onUpdate_registers
                    cb {| clearSignal := Some s;
                          emitCurrentValue := includeLastObservation o |}
                    st Hlive Hactive) as (Hl & Hc & Hs).
        cbn [clearSignal] in Hs.
        split; [exact Hl|]. split; [|exact Hs].
        rewrite Hc. unfold emits. cbn [emitCurrentValue].
        destruct (includeLastObservation o) as [[|]|]; reflexivity.
  - intros Hdisposed. unfold listen.
    destruct (isCancelled (signals st (_cancelSignal this))
              || clearSignalCancelled options st);
      [split; reflexivity|].
    cbn [snd]. now apply onUpdate_disposed.
Qed.

(** C3: an inbound message tagged with another content identifier than
    the observer's is dropped: the state, and with it the backing
    reference, is left as it is. *)
Theorem stale_message_discarded
        (this : WorkerPlaybackObserver)
        (msg : ObservationMessage IWorkerPlaybackObservation) (st : State) :
  messageContentId msg <> _contentId this ->
  onObservationMessage this msg st = st.
Proof.
  intros Hother. unfold onObservationMessage.
  destruct (String.eqb_spec (messageContentId msg) (_contentId this));
    [contradiction | reflexivity].
Qed.

End WithObservation.

(** C7 at work: with no signal cancelled, callback 2 asking for the last
    observation and giving signal 5 as [clearSignal] is registered after
    callback 1, called with observation 7, and unregistered by a cleanup
    of signal 5; with the observer's signal cancelled nothing happens. *)
Lemma listen_registers_unless_cancelled_witness :
  (let st' :=
     snd (listen Scenarios.observerA 2%nat
                 (Some {| includeLastObservation := Some true;
                          listenClearSignal := Some 5%nat |})
                 Scenarios.workerState) in
   listeners (src st') = [1%nat; 2%nat]
   /\ calls st' = [(2%nat, 7%nat)]
   /\ cleanups (signals st' 5%nat) = [Unlisten 2%nat])
  /\ (let cancelled :=
        with_signal 0%nat (mark fresh) Scenarios.workerState in
      listen Scenarios.observerA 2%nat None cancelled = (tt, cancelled)).
Proof.
  split.
  - destruct (listen_registers_unless_cancelled
                nat Scenarios.observerA 2%nat
                (Some {| includeLastObservation := Some true;
                         listenClearSignal := Some 5%nat |})
                Scenarios.workerState) as (_ & _ & _ & Hlive & _).
    destruct (Hlive eq_refl eq_refl) as (_ & Hgiven).
    destruct (Hgiven _ eq_refl) as (_ & Hsignal).
    destruct (Hsignal 5%nat eq_refl eq_refl) as (Hl & Hc & Hs & _).
    split; [exact Hl|]. split; [exact Hc | exact Hs].
  - destruct (listen_registers_unless_cancelled
                nat Scenarios.observerA 2%nat None
                (with_signal 0%nat (mark fresh) Scenarios.workerState))
      as (Hcancelled & _).
    apply Hcancelled. reflexivity.
Defined.

(** C3 at work (property P7): the observer of content "A" receives a
    message for content "B". *)
Lemma stale_message_discarded_witness :
  onObservationMessage Scenarios.observerA Scenarios.messageForB
                       Scenarios.workerState
  = Scenarios.workerState.
Proof.
  apply (stale_message_discarded
           nat Scenarios.observerA Scenarios.messageForB
           Scenarios.workerState).
  discriminate.
Defined.

End WorkerObserverFacts.

(** ** [createCorePlaybackObserver] *)
Module CoreObserverFacts.
Import Js JsFacts Reference Cancellation CoreObserver.

(** *** Last elements *)

Lemma nth_error_last {A : Type} (l : list A) (x : A) :
  nth_error (l ++ [x]) (List.length (l ++ [x]) - 1) = Some x.
Proof.
  rewrite length_app. cbn [List.length].
  replace (List.length l + 1 - 1)%nat with (List.length l) by lia.
  rewrite nth_error_app2 by lia. now rewrite Nat.sub_diag.
Qed.

Lemma nth_error_last_inv {A : Type} (l : list A) (x : A) :
  nth_error l (List.length l - 1) = Some x -> exists earlier, l = earlier ++ [x].
Proof.
  induction l as [|a earlier _] using rev_ind.
  - discriminate.
  - rewrite nth_error_last. intros [= ->]. now exists earlier.
Qed.

Section WithCollaborators.

Variable X : Collaborators.
Variable autoPlay : bool.

Local Abbreviation Manifest := (IManifestMetadata.t (ManifestInternals X)).
Local Abbreviation Observation := (IPlaybackObservation.t X).
Local Abbreviation construct := (constructCorePlaybackObservation autoPlay).

(** *** The wanted-position correction *)

Lemma lastPeriodOf_iff (m : Manifest) (p : IPeriod.t) :
  lastPeriodOf m = Some p
  <-> exists earlier, IManifestMetadata.periods m = earlier ++ [p].
Proof.
  unfold lastPeriodOf. split.
  - apply nth_error_last_inv.
  - intros [earlier ->]. apply nth_error_last.
Qed.

Lemma lastSegmentProbablyNotLoaded_iff (observation : Observation) :
  lastSegmentProbablyNotLoaded observation = true
  <-> (IPlaybackObservation.buffered observation = []
       \/ exists earlier range,
            IPlaybackObservation.buffered observation = earlier ++ [range]
            /\ snd range < IPlaybackObservation.duration observation - 1).
Proof.
  unfold lastSegmentProbablyNotLoaded, TimeRanges_end.
  destruct (IPlaybackObservation.buffered observation) as [|r0 rest] eqn:Hb.
  - cbn. split; auto.
  - rewrite <- Hb. clear Hb.
    induction (IPlaybackObservation.buffered observation)
      as [|range earlier _] using rev_ind.
    + cbn. split; auto.
    + rewrite nth_error_last. cbn [option_map].
      replace (Nat.eqb (List.length (earlier ++ [range])) 0) with false
        by (rewrite length_app; cbn; symmetry; apply Nat.eqb_neq; lia).
      cbn [orb]. rewrite ltb_lt. split.
      * intros Hlt. right. now exists earlier, range.
      * intros [Hnil | (earlier' & range' & Heq & Hlt)].
        -- now destruct earlier.
        -- apply app_inj_tail in Heq. destruct Heq as [_ ->]. exact Hlt.
Qed.

(** The function, case by case on [correctionApplies]. *)
Lemma updateWantedPositionIfAfterManifest_cases
      (observation : Observation) (manifest : Manifest) (h : Heap) :
  let wanted :=
    ObservationPosition.getWanted
      (h (IPlaybackObservation.position observation)) in
  (forall lastPeriod lastEnd,
      correctionApplies observation manifest wanted lastPeriod lastEnd ->
      updateWantedPositionIfAfterManifest observation manifest h
      = forceWantedPositionOf observation (lastEnd - 1) h)
  /\ ((forall lastPeriod lastEnd,
          ~ correctionApplies observation manifest wanted lastPeriod lastEnd) ->
      updateWantedPositionIfAfterManifest observation manifest h = h).
Proof.
  cbv zeta. unfold updateWantedPositionIfAfterManifest, correctionApplies.
  split.
  - intros lastPeriod lastEnd (Hfinished & Hlast & Hend & Hstart & Hwanted & Hbuf).
    replace (negb (IManifestMetadata.isDynamic manifest)
             || IManifestMetadata.isLastPeriodKnown manifest) with true
      by (destruct Hfinished as [-> | ->];
          [reflexivity | now rewrite orb_true_r]).
    apply lastPeriodOf_iff in Hlast. rewrite Hlast, Hend.
    apply geb_le in Hstart, Hwanted. rewrite Hstart, Hwanted. cbn [andb].
    apply lastSegmentProbablyNotLoaded_iff in Hbuf. now rewrite Hbuf.
  - intros Hnone.
    destruct (negb (IManifestMetadata.isDynamic manifest)
              || IManifestMetadata.isLastPeriodKnown manifest) eqn:Hfinished;
      [|reflexivity].
    destruct (lastPeriodOf manifest) as [lastPeriod|] eqn:Hlast;
      [|reflexivity].
    destruct (IPeriod.end_ lastPeriod) as [lastEnd|] eqn:Hend; [|reflexivity].
    destruct (geb _ (IPeriod.start lastPeriod)) eqn:Hstart; [|reflexivity].
    destruct (geb _ (lastEnd - 1)) eqn:Hwanted; [|reflexivity].
    cbn [andb].
    destruct (lastSegmentProbablyNotLoaded observation) eqn:Hbuf;
      [|reflexivity].
    exfalso. apply (Hnone lastPeriod lastEnd).
    repeat split.
    + apply orb_true_iff in Hfinished.
      destruct Hfinished as [Hd | Hk]; [left | now right].
      now apply negb_true_iff.
    + now apply lastPeriodOf_iff.
    + exact Hend.
    + now apply geb_le.
    + now apply geb_le.
    + now apply lastSegmentProbablyNotLoaded_iff.
Qed.

Lemma forceWantedPositionOf_wanted (observation : Observation) (pos : Q)
      (h : Heap) :
  ObservationPosition.getWanted
    (forceWantedPositionOf observation pos h
                           (IPlaybackObservation.position observation))
  = pos.
Proof.
  unfold forceWantedPositionOf, write. now rewrite Nat.eqb_refl.
Qed.

(** Up to the end of the last period, the code and the spec's wording
    agree: they part only on wanted positions past that end. *)
Lemma specWantedPosition_agrees
      (observation : Observation) (manifest : Manifest) (h : Heap) :
  (forall lastPeriod lastEnd,
      lastPeriodOf manifest = Some lastPeriod ->
      IPeriod.end_ lastPeriod = Some lastEnd ->
      ObservationPosition.getWanted
        (h (IPlaybackObservation.position observation)) <= lastEnd) ->
  ObservationPosition.getWanted
    (updateWantedPositionIfAfterManifest
       observation manifest h (IPlaybackObservation.position observation))
  = specWantedPosition observation manifest h.
Proof.
  intros Hbefore.
  unfold updateWantedPositionIfAfterManifest, specWantedPosition,
    withinLastSecond.
  destruct (negb (IManifestMetadata.isDynamic manifest)
            || IManifestMetadata.isLastPeriodKnown manifest); [|reflexivity].
  destruct (lastPeriodOf manifest) as [lastPeriod|]; [|reflexivity].
  destruct (IPeriod.end_ lastPeriod) as [lastEnd|] eqn:Hend; [|reflexivity].
  specialize (Hbefore lastPeriod lastEnd eq_refl Hend).
  apply geb_le in Hbefore. rewrite Hbefore, andb_true_r.
  destruct (geb _ (IPeriod.start lastPeriod) && geb _ (lastEnd - 1));
    [|reflexivity].
  cbn [andb].
  destruct (lastSegmentProbablyNotLoaded observation); [|reflexivity].
  apply forceWantedPositionOf_wanted.
Qed.

(** What a construction leaves of the environment. *)
Lemma construct_env {L C : Type} (e : Env X L C) :
  snd (construct e)
  = with_heap
      (updateWantedPositionIfAfterManifest
         (getValue (observationRef e)) (manifest e) (heap e))
      (log Constructed e).
Proof. reflexivity. Qed.

(** C1, as amended: the builder forces the wanted position of its output
    to one second before the last period's end exactly when the manifest
    is not dynamic or its last period is known, the last period has a
    known end, the wanted position is at or after both the period's start
    and one second before its end (positions past the end included), and
    the buffered ranges are empty or end before [duration - 1]; otherwise
    the wanted position and the heap are left as they are. *)
Theorem wanted_position_correction {L C : Type} (e : Env X L C) :
  let observation := getValue (observationRef e) in
  let wanted :=
    ObservationPosition.getWanted
      (heap e (IPlaybackObservation.position observation)) in
  let built := construct e in
  let wanted' :=
    ObservationPosition.getWanted
      (heap (snd built) (ICorePlaybackObservation.position (fst built))) in
  (forall lastPeriod lastEnd,
      correctionApplies observation (manifest e) wanted lastPeriod lastEnd ->
      wanted' = lastEnd - 1)
  /\ ((forall lastPeriod lastEnd,
          ~ correctionApplies observation (manifest e) wanted
                              lastPeriod lastEnd) ->
      wanted' = wanted /\ heap (snd built) = heap e).
Proof.
  cbv zeta. rewrite construct_env. cbn [fst heap with_heap log manifest
    constructCorePlaybackObservation ICorePlaybackObservation.position].
  destruct (updateWantedPositionIfAfterManifest_cases
              (getValue (observationRef e)) (manifest e) (heap e))
    as [Happlies Hnot].
  split.
  - intros lastPeriod lastEnd Hc.
    rewrite (Happlies _ _ Hc). apply forceWantedPositionOf_wanted.
  - intros Hnone. now rewrite (Hnot Hnone).
Qed.

(** *** The fields of the built observation *)

(** C4: [paused.pending] of every built observation is [undefined] when
    the initial play has been performed, and [!autoPlay] otherwise; so it
    is [true] before the initial play with [autoPlay] false, and
    [undefined] after the initial play whatever [autoPlay] is. *)
Theorem pending_paused {L C : Type} (e : Env X L C) :
  Paused.pending (ICorePlaybackObservation.paused (fst (construct e)))
  = (if getValue (initialPlayPerformed e) then None
     else Some (negb autoPlay))
  /\ (forall (r : SharedReference bool nat) (a : bool),
         getPendingPaused r a
         = if getValue r then None else Some (negb a))
  /\ (forall others isDisposed,
         getPendingPaused {| value := false; listeners := others;
                             disposed := isDisposed |} false
         = Some true)
  /\ (forall others isDisposed (a : bool),
         getPendingPaused {| value := true; listeners := others;
                             disposed := isDisposed |} a
         = None).
Proof. repeat split. Qed.

(** C9: [maximumPosition] of every built observation is the maximum safe
    position of the manifest as it is when the observation is built: a
    rebuild after the manifest changed to [m] publishes the maximum safe
    position of [m]. *)
Theorem maximumPosition_recomputed {L C : Type} (e : Env X L C) :
  ICorePlaybackObservation.maximumPosition (fst (construct e))
  = getMaximumSafePosition X (manifest e)
  /\ (forall m : Manifest,
         ICorePlaybackObservation.maximumPosition
           (fst (construct (with_manifest m e)))
         = getMaximumSafePosition X m)
  /\ (forall (w : World X) (m : Manifest),
         disposed (newRef w) = false ->
         ICorePlaybackObservation.maximumPosition
           (value (newRef (emitCorePlaybackObservation
                             autoPlay (step autoPlay (UpdateManifest m) w))))
         = getMaximumSafePosition X m).
Proof.
  repeat split.
  intros w m Hlive.
  unfold emitCorePlaybackObservation, newRef_setValue.
  cbn. now rewrite Hlive.
Qed.

(** *** What a rebuild writes *)

(** A construction reads the environment and writes the heap and the
    trace only. *)
Lemma construct_frame {L C : Type} (e : Env X L C) :
  manifest (snd (construct e)) = manifest e
  /\ mediaSource (snd (construct e)) = mediaSource e
  /\ textDisplayer (snd (construct e)) = textDisplayer e
  /\ initialPlayPerformed (snd (construct e)) = initialPlayPerformed e
  /\ speed (snd (construct e)) = speed e
  /\ observationRef (snd (construct e)) = observationRef e
  /\ parentObserverCancelSignal (snd (construct e))
     = parentObserverCancelSignal e
  /\ fnCancelSignal (snd (construct e)) = fnCancelSignal e
  /\ trace (snd (construct e)) = Constructed :: trace e.
Proof. repeat split. Qed.

(** The correction writes one position object at most, and only its
    wanted position. *)
Lemma updateWantedPositionIfAfterManifest_frame
      (observation : Observation) (manifest : Manifest) (h : Heap) :
  (forall l,
      l <> IPlaybackObservation.position observation ->
      updateWantedPositionIfAfterManifest observation manifest h l = h l)
  /\ (forall l,
         ObservationPosition.current
           (updateWantedPositionIfAfterManifest observation manifest h l)
         = ObservationPosition.current (h l)).
Proof.
  assert (Hforce :
            forall pos,
              (forall l,
                  l <> IPlaybackObservation.position observation ->
                  forceWantedPositionOf observation pos h l = h l)
              /\ (forall l,
                     ObservationPosition.current
                       (forceWantedPositionOf observation pos h l)
                     = ObservationPosition.current (h l))).
  { intros pos. unfold forceWantedPositionOf, write. split; intros l.
    - intros Hl. apply Nat.eqb_neq in Hl. now rewrite Hl.
    - destruct (Nat.eqb_spec l (IPlaybackObservation.position observation));
        [subst|]; reflexivity. }
  unfold updateWantedPositionIfAfterManifest.
  repeat match goal with
         | |- context [if ?b then _ else _] => destruct b
         | |- context [match ?o with Some _ => _ | None => _ end] => destruct o
         end;
    try (split; reflexivity); apply Hforce.
Qed.

(** C2, as amended: a rebuild constructs a new core observation and puts
    it in place of the value of [newRef] (when [newRef] is not disposed);
    it leaves the source references, and with them the published base
    observation record, the manifest and the canceller as they are; in
    the heap it writes at most the position object of the base
    observation it reads, and of that object only the wanted position,
    which the correction of C1 overwrites in place. *)
Theorem rebuild_effects (w : World X) :
  let built := construct (env w) in
  let w' := emitCorePlaybackObservation autoPlay w in
  (disposed (newRef w) = false ->
   newRef w' = replaceValue (fst built) (newRef w))
  /\ (disposed (newRef w) = true -> newRef w' = newRef w)
  /\ observationRef (env w') = observationRef (env w)
  /\ speed (env w') = speed (env w)
  /\ initialPlayPerformed (env w') = initialPlayPerformed (env w)
  /\ manifest (env w') = manifest (env w)
  /\ canceller w' = canceller w
  /\ (forall l,
         l <> IPlaybackObservation.position
                (getValue (observationRef (env w))) ->
         heap (env w') l = heap (env w) l)
  /\ (forall l,
         ObservationPosition.current (heap (env w') l)
         = ObservationPosition.current (heap (env w) l)).
Proof.
  cbv zeta.
  destruct (updateWantedPositionIfAfterManifest_frame
              (getValue (observationRef (env w))) (manifest (env w))
              (heap (env w))) as [Hother Hcurrent].
  unfold emitCorePlaybackObservation, newRef_setValue.
  cbn [constructCorePlaybackObservation fst snd with_env newRef env].
  destruct (disposed (newRef w)) eqn:Hd; cbn;
    repeat split; try discriminate; try reflexivity; assumption.
Qed.

(** *** The subscriptions of the transform *)

Lemma sameWiring_refl (w : World X) : sameWiring w w.
Proof. repeat split. Qed.

Lemma sameWiring_trans (w1 w2 w3 : World X) :
  sameWiring w1 w2 -> sameWiring w2 w3 -> sameWiring w1 w3.
Proof.
  unfold sameWiring.
  intros (A1 & A2 & A3 & A4 & A5 & A6 & A7 & A8)
         (B1 & B2 & B3 & B4 & B5 & B6 & B7 & B8).
  repeat split; congruence.
Qed.

Lemma sameWiring_wired (w w' : World X) :
  sameWiring w w' -> wired w -> wired w'.
Proof.
  unfold sameWiring, wired, subscribed.
  intros (A1 & _ & _ & A2 & A3 & A4 & A5 & A6) Hw.
  rewrite A1, A2, A3, A4, A5, A6. exact Hw.
Qed.

(** A rebuild keeps the wiring. *)
Lemma emit_sameWiring (w : World X) :
  sameWiring w (emitCorePlaybackObservation autoPlay w).
Proof.
  unfold emitCorePlaybackObservation, newRef_setValue, sameWiring.
  cbn [constructCorePlaybackObservation with_env newRef env].
  destruct (disposed (newRef w)) eqn:Hd; cbn; rewrite ?Hd; repeat split.
Qed.

Lemma trigger_sameWiring (l : Listener) (w : World X) :
  sameWiring w (trigger autoPlay l w).
Proof.
  destruct l; [apply emit_sameWiring | apply sameWiring_refl].
Qed.

Lemma notify_sameWiring (ls : list Listener) (w : World X) :
  sameWiring w (fold_left (fun acc l => trigger autoPlay l acc) ls w).
Proof.
  revert w. induction ls as [|l ls IH]; intros w; cbn [fold_left].
  - apply sameWiring_refl.
  - eapply sameWiring_trans; [apply trigger_sameWiring | apply IH].
Qed.

(** A notification pass over listeners of other components only does
    nothing. *)
Lemma notify_others (ls : list Listener) (w : World X) :
  emitters ls = 0%nat ->
  fold_left (fun acc l => trigger autoPlay l acc) ls w = w.
Proof.
  revert w. induction ls as [|l ls IH]; intros w; [reflexivity|].
  unfold emitters in *. cbn [filter fold_left].
  destruct l; cbn [Listener_eqb List.length]; [discriminate|].
  intros H. cbn [trigger]. now apply IH.
Qed.

(** A notification pass over a list where
    [emitCorePlaybackObservation] is registered once is one rebuild. *)
Lemma notify_once (ls : list Listener) (w : World X) :
  emitters ls = 1%nat ->
  fold_left (fun acc l => trigger autoPlay l acc) ls w
  = emitCorePlaybackObservation autoPlay w.
Proof.
  revert w. induction ls as [|l ls IH]; intros w; [discriminate|].
  unfold emitters in *. cbn [filter fold_left].
  destruct l; cbn [Listener_eqb List.length trigger].
  - intros [= H]. now apply notify_others.
  - intros H. now apply IH.
Qed.

Lemma emitters_app (l1 l2 : list Listener) :
  emitters (l1 ++ l2) = (emitters l1 + emitters l2)%nat.
Proof. unfold emitters. now rewrite filter_app, length_app. Qed.

Lemma emitters_foreign (ids : list nat) :
  emitters (map OtherListener ids) = 0%nat.
Proof. induction ids as [|i ids IH]; [reflexivity | exact IH]. Qed.

(** *** Cancellation *)

Lemma runCancellerCleanup_canceller (c : CancellerCleanup) (w : World X) :
  canceller (runCancellerCleanup c w) = canceller w.
Proof. destruct c as [|[] cb]; reflexivity. Qed.

Lemma runCancellerCleanups_canceller (cs : list CancellerCleanup)
      (w : World X) :
  canceller (fold_left (fun acc c => runCancellerCleanup c acc) cs w)
  = canceller w.
Proof.
  revert w. induction cs as [|c cs IH]; intros w; [reflexivity|].
  cbn [fold_left]. rewrite IH. apply runCancellerCleanup_canceller.
Qed.

(** Once [canceller.cancel()] has run, the canceller is cancelled. *)
Lemma cancelCanceller_cancelled (w : World X) :
  isCancelled (canceller (cancelCanceller w)) = true.
Proof.
  unfold cancelCanceller.
  destruct (isCancelled (canceller w)) eqn:Hc; [exact Hc|].
  cbn [with_canceller canceller]. unfold clear, isCancelled.
  cbn [cancelled]. now rewrite runCancellerCleanups_canceller.
Qed.

Lemma runSourceCleanup_wired (c : SourceCleanup) (w : World X) :
  wired w -> wired (runSourceCleanup c w).
Proof.
  destruct c; cbn [runSourceCleanup]; [|auto].
  intros _ Hlive. now rewrite cancelCanceller_cancelled in Hlive.
Qed.

Lemma runSourceCleanups_wired (cs : list SourceCleanup) (w : World X) :
  wired w ->
  wired (fold_left (fun acc c => runSourceCleanup c acc) cs w).
Proof.
  revert w. induction cs as [|c cs IH]; intros w Hw; [exact Hw|].
  cbn [fold_left]. apply IH. now apply runSourceCleanup_wired.
Qed.

(** The linked signals are no part of the wiring. *)
Lemma with_linked_wired (which : LinkedSignal)
      (s : CancellationSignal SourceCleanup) (w : World X) :
  wired (with_env (with_linked which s (env w)) w) <-> wired w.
Proof. reflexivity. Qed.

Lemma cancelLinked_wired (which : LinkedSignal) (w : World X) :
  wired w -> wired (cancelLinked which w).
Proof.
  intros Hw. unfold cancelLinked.
  destruct (isCancelled (linked which (env w))); [exact Hw|].
  apply with_linked_wired, runSourceCleanups_wired, with_linked_wired, Hw.
Qed.

(** *** The invariant *)

Lemma step_wired (s : Step X) (w : World X) :
  wired w -> wired (step autoPlay s w).
Proof.
  intros Hw. destruct s as [o|v|l p|v|m|ms td|src id|id|which];
    cbn [step].
  - unfold observationRef_setValue.
    destruct (disposed (observationRef (env w))); [exact Hw|].
    eapply sameWiring_wired; [apply notify_sameWiring|]. exact Hw.
  - unfold speed_setValue.
    destruct (disposed (speed (env w))); [exact Hw|].
    eapply sameWiring_wired; [apply notify_sameWiring|]. exact Hw.
  - exact Hw.
  - exact Hw.
  - exact Hw.
  - exact Hw.
  - intros Hlive.
    assert (Hsub : subscribed w) by (apply Hw; now destruct src).
    destruct Hsub as (Hd & Hs & Ho).
    destruct src; unfold subscribed;
      cbn [addSourceListener with_env with_speed with_observationRef env
           newRef speed observationRef addListener listeners disposed];
      rewrite ?emitters_app; cbn [emitters filter Listener_eqb List.length];
      (split; [exact Hd|]); split; intros Hsrc;
      try (now apply Hs); try (now apply Ho);
      [specialize (Hs Hsrc) | specialize (Ho Hsrc)];
      unfold emitters in *; lia.
  - exact Hw.
  - now apply cancelLinked_wired.
Qed.

Lemma run_wired (steps : list (Step X)) (w : World X) :
  wired w -> wired (run autoPlay steps w).
Proof.
  unfold run. revert w.
  induction steps as [|s steps IH]; intros w Hw; [exact Hw|].
  cbn [fold_left]. apply IH. now apply step_wired.
Qed.

(** *** The setup *)

(** The case analysis of the setup: was [parentObserverCancelSignal]
    already cancelled, was [fnCancelSignal], is [speed] disposed, is
    [observationRef]. *)
Ltac setup_cases e0 :=
  destruct e0 as [? ? ? ? ? [? ? [|]] [? ? [|]] [[|] ?] [[|] ?] ?];
  cbv [transform linkToSignal onUpdate sourceDisposed newSharedReference
       registerOnCanceller runCancellerCleanup addSourceListener
       constructCorePlaybackObservation emits
       linked with_linked log foreign foreignSignal foreignReference
       with_heap with_env with_canceller with_newRef with_speed
       with_observationRef isCancelled store mark clear fresh create
       dispose addListener
       cancelled cleanups disposed listeners value getValue
       clearSignal emitCurrentValue
       env canceller newRef
       heap manifest mediaSource textDisplayer initialPlayPerformed speed
       observationRef parentObserverCancelSignal fnCancelSignal trace
       fst snd];
  cbn [cancelled cleanups disposed listeners env canceller newRef speed
       observationRef parentObserverCancelSignal fnCancelSignal trace
       orb app] in *.

(** The transform leaves the canceller cancelled exactly when one of the
    two signals it is linked to was already cancelled. *)
Lemma transform_canceller (e0 : Env X nat nat) :
  isCancelled (canceller (transform autoPlay e0))
  = cancelled (parentObserverCancelSignal e0)
    || cancelled (fnCancelSignal e0).
Proof. setup_cases e0; reflexivity. Qed.

(** The setup runs the body once and constructs one observation, the
    initial value of [newRef]: registering the two listeners emits
    nothing. *)
Lemma transform_trace (e0 : Env X nat nat) :
  trace (env (transform autoPlay e0))
  = Constructed :: TransformSetup :: trace e0.
Proof. setup_cases e0; reflexivity. Qed.

(** After the setup the subscriptions are in place, unless the canceller
    is cancelled. *)
Lemma transform_wired (e0 : Env X nat nat) : wired (transform autoPlay e0).
Proof.
  unfold wired, subscribed.
  setup_cases e0; intros Hlive; try discriminate Hlive;
    (split; [reflexivity|]); split; intros Hsrc; try discriminate Hsrc;
    rewrite emitters_app, emitters_foreign; reflexivity.
Qed.

(** *** The canceller follows its links *)

Lemma sameWiring_linksHeld (w w' : World X) :
  sameWiring w w' -> linksHeld w -> linksHeld w'.
Proof.
  unfold sameWiring, linksHeld.
  intros (A1 & A2 & A3 & _) [H1 H2]. split.
  - rewrite A1, A2, A3. exact H1.
  - intros [|]; cbn [linked]; rewrite ?A2, ?A3.
    + apply (H2 ParentObserverCancelSignal).
    + apply (H2 FnCancelSignal).
Qed.

Lemma runCancellerCleanups_links (cs : list CancellerCleanup) (w : World X) :
  forall which,
    linked which
           (env (fold_left (fun acc c => runCancellerCleanup c acc) cs w))
    = linked which (env w).
Proof.
  intros which. revert w.
  induction cs as [|c cs IH]; intros w; [reflexivity|].
  cbn [fold_left]. rewrite IH. now destruct c as [|[] cb], which.
Qed.

Lemma cancelCanceller_links (w : World X) :
  forall which, linked which (env (cancelCanceller w)) = linked which (env w).
Proof.
  intros which. unfold cancelCanceller.
  destruct (isCancelled (canceller w)); [reflexivity|].
  cbn [with_canceller env]. now rewrite runCancellerCleanups_links.
Qed.

Lemma runSourceCleanups_links (cs : list SourceCleanup) (w : World X) :
  forall which,
    linked which (env (fold_left (fun acc c => runSourceCleanup c acc) cs w))
    = linked which (env w).
Proof.
  intros which. revert w.
  induction cs as [|c cs IH]; intros w; [reflexivity|].
  cbn [fold_left]. rewrite IH.
  destruct c; [apply cancelCanceller_links | reflexivity].
Qed.

(** A cancelled canceller stays cancelled. *)
Lemma runSourceCleanups_cancelled (cs : list SourceCleanup) (w : World X) :
  isCancelled (canceller w) = true ->
  isCancelled
    (canceller (fold_left (fun acc c => runSourceCleanup c acc) cs w))
  = true.
Proof.
  revert w. induction cs as [|c cs IH]; intros w Hc; [exact Hc|].
  cbn [fold_left]. apply IH.
  destruct c; [apply cancelCanceller_cancelled | exact Hc].
Qed.

(** Running cleanups among which is the one stored by [linkToSignal]
    cancels the canceller. *)
Lemma runSourceCleanups_cancels (cs : list SourceCleanup) (w : World X) :
  In CancelCanceller cs ->
  isCancelled
    (canceller (fold_left (fun acc c => runSourceCleanup c acc) cs w))
  = true.
Proof.
  revert w. induction cs as [|c cs IH]; intros w Hin; [contradiction|].
  cbn [fold_left]. destruct Hin as [-> | Hin]; [|now apply IH].
  apply runSourceCleanups_cancelled, cancelCanceller_cancelled.
Qed.

Lemma cancelLinked_linksHeld (which : LinkedSignal) (w : World X) :
  linksHeld w -> linksHeld (cancelLinked which w).
Proof.
  intros [H1 H2]. unfold cancelLinked.
  destruct (isCancelled (linked which (env w))) eqn:Hc; [now split|].
  pose proof (runSourceCleanups_cancels
                (cleanups (linked which (env w)))
                (with_env (with_linked which (mark (linked which (env w)))
                                       (env w)) w)
                (H2 which Hc)) as Hcancelled.
  pose proof (runSourceCleanups_links
                (cleanups (linked which (env w)))
                (with_env (with_linked which (mark (linked which (env w)))
                                       (env w)) w)) as Hlinks.
  set (w2 := fold_left _ _ _) in *.
  pose proof (Hlinks ParentObserverCancelSignal) as Hp.
  pose proof (Hlinks FnCancelSignal) as Hf.
  unfold linksHeld.
  cbn [with_env env canceller] in *.
  rewrite Hcancelled.
  destruct which; cbn [linked with_linked parentObserverCancelSignal
                       fnCancelSignal] in *.
  - rewrite Hp, Hf. cbn [clear mark cancelled]. split; [reflexivity|].
    intros [|]; cbn [linked with_linked parentObserverCancelSignal
                     fnCancelSignal cancelled]; [discriminate|].
    rewrite Hf. apply (H2 FnCancelSignal).
  - rewrite Hp, Hf. cbn [clear mark cancelled]. split.
    + now rewrite orb_true_r.
    + intros [|]; cbn [linked with_linked parentObserverCancelSignal
                       fnCancelSignal cancelled]; [|discriminate].
      rewrite Hp. apply (H2 ParentObserverCancelSignal).
Qed.

Lemma step_linksHeld (s : Step X) (w : World X) :
  linksHeld w -> linksHeld (step autoPlay s w).
Proof.
  intros Hw. destruct s as [o|v|l p|v|m|ms td|src id|id|which];
    cbn [step]; try exact Hw.
  - unfold observationRef_setValue.
    destruct (disposed (observationRef (env w))); [exact Hw|].
    eapply sameWiring_linksHeld; [apply notify_sameWiring|]. exact Hw.
  - unfold speed_setValue.
    destruct (disposed (speed (env w))); [exact Hw|].
    eapply sameWiring_linksHeld; [apply notify_sameWiring|]. exact Hw.
  - now destruct src.
  - now apply cancelLinked_linksHeld.
Qed.

Lemma run_linksHeld (steps : list (Step X)) (w : World X) :
  linksHeld w -> linksHeld (run autoPlay steps w).
Proof.
  unfold run. revert w.
  induction steps as [|s steps IH]; intros w Hw; [exact Hw|].
  cbn [fold_left]. apply IH. now apply step_linksHeld.
Qed.

Lemma transform_linksHeld (e0 : Env X nat nat) :
  linksHeld (transform autoPlay e0).
Proof.
  unfold linksHeld.
  setup_cases e0; (split; [reflexivity|]);
    intros [|]; cbn; try discriminate; intros _;
    apply in_or_app; right; now left.
Qed.

(** *** One update, one rebuild *)

Lemma stored_sameWiring (u : Update X) (w : World X) :
  sameWiring w (stored u w).
Proof. destruct u; repeat split. Qed.

Lemma stored_trace (u : Update X) (w : World X) :
  trace (env (stored u w)) = trace (env w).
Proof. destruct u; reflexivity. Qed.

(** In a state where the subscriptions are in place, an accepted update
    of either source reference is exactly one rebuild. *)
Lemma subscribed_recomputesOnce (u : Update X) (w : World X) :
  subscribed w -> accepted u w -> recomputesOnce autoPlay u w.
Proof.
  intros (Hd & Hs & Ho) Hacc.
  assert (Hstep : step autoPlay (stepOf u) w
                  = emitCorePlaybackObservation autoPlay (stored u w)).
  { destruct u as [v|o]; cbn [stepOf step accepted stored] in *.
    - unfold speed_setValue. rewrite Hacc. apply notify_once.
      cbn [with_env with_speed env speed replaceValue listeners].
      exact (Hs Hacc).
    - unfold observationRef_setValue. rewrite Hacc. apply notify_once.
      cbn [with_env with_observationRef env observationRef replaceValue
           listeners].
      exact (Ho Hacc). }
  unfold recomputesOnce. cbv zeta. rewrite Hstep.
  assert (Hd' : disposed (newRef (stored u w)) = false)
    by (destruct u; exact Hd).
  unfold emitCorePlaybackObservation, newRef_setValue.
  cbn [constructCorePlaybackObservation fst snd with_env newRef env].
  rewrite Hd'. cbn. rewrite stored_trace. repeat split.
Qed.

(** C8, as amended: the setup constructs the initial value and emits
    nothing when it registers its two listeners; after it, and after any
    further steps of the other components, the canceller is cancelled
    exactly when [parentObserverCancelSignal] or [fnCancelSignal] is, and
    as long as it is not, every accepted update of the base observation
    reference or of the speed reference is exactly one rebuild: one core
    observation constructed from the current values of both references
    and set on [newRef], with no new run of the transform's body. *)
Theorem updates_recompute_once (e0 : Env X nat nat) :
  let w0 := createCorePlaybackObserver autoPlay e0 in
  trace (env w0) = Constructed :: TransformSetup :: trace e0
  /\ forall (steps : list (Step X)) (u : Update X),
       let w := run autoPlay steps w0 in
       isCancelled (canceller w)
       = cancelled (parentObserverCancelSignal (env w))
         || cancelled (fnCancelSignal (env w))
       /\ (isCancelled (canceller w) = false ->
           accepted u w ->
           recomputesOnce autoPlay u w).
Proof.
  cbv zeta. unfold createCorePlaybackObserver.
  split; [apply transform_trace|].
  intros steps u. split.
  - exact (proj1 (run_linksHeld steps _ (transform_linksHeld e0))).
  - intros Hlive Hacc.
    apply subscribed_recomputesOnce; [|exact Hacc].
    exact (run_wired steps _ (transform_wired e0) Hlive).
Qed.

(** *** Further properties of the builder *)

(** The function leaves the heap as it is or forces the wanted position
    to one second before the end of the last period. *)
Lemma updateWantedPositionIfAfterManifest_shape
      (observation : Observation) (manifest : Manifest) (h : Heap) :
  updateWantedPositionIfAfterManifest observation manifest h = h
  \/ exists lastPeriod lastEnd,
       lastPeriodOf manifest = Some lastPeriod
       /\ IPeriod.end_ lastPeriod = Some lastEnd
       /\ updateWantedPositionIfAfterManifest observation manifest h
          = forceWantedPositionOf observation (lastEnd - 1) h.
Proof.
  unfold updateWantedPositionIfAfterManifest.
  destruct (negb (IManifestMetadata.isDynamic manifest)
            || IManifestMetadata.isLastPeriodKnown manifest); [|now left].
  destruct (lastPeriodOf manifest) as [lastPeriod|]; [|now left].
  destruct (IPeriod.end_ lastPeriod) as [lastEnd|] eqn:Hend; [|now left].
  match goal with
  | |- context [if ?b then _ else _] => destruct b; [|now left]
  end.
  destruct (lastSegmentProbablyNotLoaded observation); [|now left].
  right. now exists lastPeriod, lastEnd.
Qed.

(** The correction is stable: applied to its own result, for the same
    observation and manifest, it changes no position object. *)
Theorem updateWantedPositionIfAfterManifest_stable
        (observation : Observation) (manifest : Manifest) (h : Heap) (l : loc) :
  updateWantedPositionIfAfterManifest
    observation manifest
    (updateWantedPositionIfAfterManifest observation manifest h) l
  = updateWantedPositionIfAfterManifest observation manifest h l.
Proof.
  destruct (updateWantedPositionIfAfterManifest_shape observation manifest h)
    as [E | (lastPeriod & lastEnd & Hlast & Hend & E)].
  - now rewrite !E.
  - rewrite E.
    destruct (updateWantedPositionIfAfterManifest_shape
                observation manifest
                (forceWantedPositionOf observation (lastEnd - 1) h))
      as [E2 | (lastPeriod2 & lastEnd2 & Hlast2 & Hend2 & E2)].
    + now rewrite E2.
    + rewrite E2. rewrite Hlast in Hlast2. injection Hlast2 as <-.
      rewrite Hend in Hend2. injection Hend2 as <-.
      unfold forceWantedPositionOf, write.
      destruct (Nat.eqb_spec l (IPlaybackObservation.position observation));
        [|reflexivity].
      now rewrite Nat.eqb_refl.
Qed.

End WithCollaborators.

(** *** The scenarios *)

(** C1: a wanted position of 150, far past the end of the last period
    [0, 100), is not within the last second of that period, so the spec's
    wording leaves it at 150; the builder forces it to 99. *)
Lemma correction_past_the_period_end :
  let e :=
    Scenarios.environment Scenarios.finishedManifest 150 [(0, 90)] false in
  let built := constructCorePlaybackObservation false e in
  specWantedPosition (getValue (observationRef e)) (manifest e) (heap e)
  = 150
  /\ ObservationPosition.getWanted
       (heap (snd built) (ICorePlaybackObservation.position (fst built)))
     = 99.
Proof. cbv zeta. split; vm_compute; reflexivity. Qed.

(** C1 at work (property P6): with the finished manifest of one period
    [0, 100), duration 100 and a wanted position of 99.5, the output
    position is corrected to 99 when [0, 90) is buffered, and left at 99.5
    when [0, 99.5) is buffered. *)
Lemma wanted_position_correction_witness :
  (let e :=
     Scenarios.environment Scenarios.finishedManifest (199 # 2) [(0, 90)]
                           false in
   let built := constructCorePlaybackObservation false e in
   ObservationPosition.getWanted
     (heap (snd built) (ICorePlaybackObservation.position (fst built)))
   = 99)
  /\ (let e :=
        Scenarios.environment Scenarios.finishedManifest (199 # 2)
                              [(0, 199 # 2)] false in
      let built := constructCorePlaybackObservation false e in
      ObservationPosition.getWanted
        (heap (snd built) (ICorePlaybackObservation.position (fst built)))
      = 199 # 2).
Proof.
  split.
  - destruct (wanted_position_correction
                Scenarios.plain false
                (Scenarios.environment Scenarios.finishedManifest (199 # 2)
                                       [(0, 90)] false))
      as [Happlies _].
    refine (Happlies {| IPeriod.start := 0; IPeriod.end_ := Some 100 |}
                     100 _).
    split; [now left|].
    split; [now exists []|].
    split; [reflexivity|].
    split; [vm_compute; discriminate|].
    split; [vm_compute; discriminate|].
    right. exists [], (0, 90). split; [reflexivity | vm_compute; reflexivity].
  - destruct (wanted_position_correction
                Scenarios.plain false
                (Scenarios.environment Scenarios.finishedManifest (199 # 2)
                                       [(0, 199 # 2)] false))
      as [_ Hnot].
    refine (proj1 (Hnot _)).
    intros lastPeriod lastEnd
           (_ & _ & _ & _ & _ & [Hnil | (earlier & range & Heq & Hlt)]).
    + discriminate Hnil.
    + change (@nil (Q * Q) ++ [(0, 199 # 2)] = earlier ++ [range]) in Heq.
      apply app_inj_tail in Heq. destruct Heq as [_ <-].
      vm_compute in Hlt. discriminate Hlt.
Defined.

(** C2: a rebuild writes into an observation that is already published.
    The observer is set up on the live manifest, which calls for no
    correction: the published base observation and the published core
    observation share the position object at address 0, wanting 99.5. The
    manifest then turns finished and the speed changes: the rebuild
    overwrites the wanted position of that object with 99. *)
Lemma rebuild_writes_published_position :
  let w0 :=
    createCorePlaybackObserver
      false
      (Scenarios.environment Scenarios.liveManifest (199 # 2) [(0, 90)]
                             false) in
  let w1 := step false (UpdateManifest Scenarios.finishedManifest) w0 in
  let w2 := step false (SetSpeed 2) w1 in
  IPlaybackObservation.position (value (observationRef (env w1))) = 0%nat
  /\ ICorePlaybackObservation.position (value (newRef w1)) = 0%nat
  /\ ObservationPosition.getWanted (heap (env w1) 0%nat) = 199 # 2
  /\ ObservationPosition.getWanted (heap (env w2) 0%nat) = 99.
Proof.
  cbv zeta. split; [|split; [|split]]; vm_compute; reflexivity.
Qed.

(** C2 at work: in the scenario above, the rebuild replaces the value of
    [newRef] by the observation it constructs. *)
Lemma rebuild_effects_witness :
  let w0 :=
    createCorePlaybackObserver
      false
      (Scenarios.environment Scenarios.liveManifest (199 # 2) [(0, 90)]
                             false) in
  newRef (emitCorePlaybackObservation false w0)
  = replaceValue
      (fst (constructCorePlaybackObservation false (env w0))) (newRef w0).
Proof.
  cbv zeta.
  exact (proj1 (rebuild_effects
                  Scenarios.plain false
                  (createCorePlaybackObserver
                     false
                     (Scenarios.environment Scenarios.liveManifest (199 # 2)
                                            [(0, 90)] false)))
               eq_refl).
Defined.

(** C8: once [fnCancelSignal] is cancelled, an update triggers no
    recomputation. Cancelled after the setup: the speed reference accepts
    the update to 2, no observation is constructed, and [newRef] still
    holds the observation built with speed 1. Cancelled before the setup:
    the same. *)
Lemma cancelled_observer_ignores_updates :
  (let w :=
     step false (Cancel FnCancelSignal)
          (createCorePlaybackObserver
             false
             (Scenarios.environment Scenarios.finishedManifest 50 [(0, 90)]
                                    false)) in
   let w' := step false (SetSpeed 2) w in
   disposed (speed (env w)) = false
   /\ value (speed (env w')) = 2
   /\ trace (env w') = trace (env w)
   /\ ICorePlaybackObservation.speed (value (newRef w')) = 1)
  /\ (let w :=
        createCorePlaybackObserver
          false
          (Scenarios.environment Scenarios.finishedManifest 50 [(0, 90)]
                                 true) in
      let w' := step false (SetSpeed 2) w in
      disposed (speed (env w)) = false
      /\ value (speed (env w')) = 2
      /\ trace (env w') = trace (env w)
      /\ ICorePlaybackObservation.speed (value (newRef w')) = 1).
Proof.
  cbv zeta.
  split; (split; [|split; [|split]]); vm_compute; reflexivity.
Qed.

(** C8 at work: nothing is cancelled; after a first speed update and a
    listener of another component, a new base observation is exactly one
    rebuild. *)
Lemma updates_recompute_once_witness :
  let w0 :=
    createCorePlaybackObserver
      false
      (Scenarios.environment Scenarios.finishedManifest 50 [(0, 90)] false) in
  let w := run false [SetSpeed 2; ListenSource ObservationRef 3%nat] w0 in
  recomputesOnce false (UpdateObservation (Scenarios.observationWith [(0, 95)]))
                 w.
Proof.
  cbv zeta.
  exact (proj2 (proj2 (updates_recompute_once
                         Scenarios.plain false
                         (Scenarios.environment Scenarios.finishedManifest 50
                                                [(0, 90)] false))
                      [SetSpeed 2; ListenSource ObservationRef 3%nat]
                      (UpdateObservation
                         (Scenarios.observationWith [(0, 95)])))
               eq_refl eq_refl).
Defined.

(** C9 at work: the observer is set up on the live manifest, whose
    maximum safe position is 95; once the manifest is the finished one, a
    rebuild publishes 100. *)
Lemma maximumPosition_recomputed_witness :
  let w0 :=
    createCorePlaybackObserver
      false
      (Scenarios.environment Scenarios.liveManifest 50 [(0, 90)] false) in
  ICorePlaybackObservation.maximumPosition (value (newRef w0)) = 95
  /\ ICorePlaybackObservation.maximumPosition
       (value (newRef (emitCorePlaybackObservation
                         false
                         (step false
                               (UpdateManifest Scenarios.finishedManifest)
                               w0))))
     = 100.
Proof.
  cbv zeta. split; [reflexivity|].
  exact (proj2 (proj2 (maximumPosition_recomputed
                         Scenarios.plain false
                         (Scenarios.environment Scenarios.liveManifest 50
                                                [(0, 90)] false)))
               (createCorePlaybackObserver
                  false
                  (Scenarios.environment Scenarios.liveManifest 50
                                         [(0, 90)] false))
               Scenarios.finishedManifest eq_refl).
Defined.

End CoreObserverFacts.

(** ** [getISOBMFFTimingInfos], further *)
Module IsobmffTimingMore.
Import Js JsFacts IsobmffTiming IsobmffTimingFacts.

Lemma or_else_Qeq (a : Q) : or_else (Some a) 0 == a.
Proof.
  unfold or_else, truthy.
  destruct (Qeq_bool a 0) eqn:E; cbn; [|reflexivity].
  apply Qeq_bool_iff in E. now rewrite E.
Qed.

Section WithParsers.

Variable getTrackFragmentDecodeTime : Uint8Array -> Q.
Variable getDurationFromTrun : Uint8Array -> Q.

Local Abbreviation timingInfos dev :=
  (getISOBMFFTimingInfos dev getTrackFragmentDecodeTime getDurationFromTrun).

(** The assertions of a development build change no result: a call
    throws the assertion error, or returns what the production build
    returns. *)
Theorem dev_build_asserts_only buffer isChunked segment sidxSegments initInfos :
  getISOBMFFTimingInfos true getTrackFragmentDecodeTime getDurationFromTrun
                        buffer isChunked segment sidxSegments initInfos
  = Throws "invalid assertion"
  \/ getISOBMFFTimingInfos true getTrackFragmentDecodeTime getDurationFromTrun
                           buffer isChunked segment sidxSegments initInfos
     = getISOBMFFTimingInfos false getTrackFragmentDecodeTime
                             getDurationFromTrun
                             buffer isChunked segment sidxSegments initInfos.
Proof.
  destruct isChunked; [now right|].
  rewrite !nonchunked_unfolded. cbv zeta.
  match goal with
  | |- assert ?c ?k = _ \/ _ =>
      destruct (assert_cases c k) as [-> | ->]; [|now left]
  end.
  match goal with
  | |- assert ?c ?k = _ \/ _ =>
      destruct (assert_cases c k) as [-> | ->]; [now right | now left]
  end.
Qed.

(** In a development build, a non-chunked call throws exactly when
    nothing gives a start time (no [tfdt], no announced segment time at
    the chosen timescale, and no sidx segment or a first one with a
    negative time) or nothing gives a duration (no [trun], no announced
    segment duration, and no sidx segment or a negative sum of their
    durations). *)
Theorem dev_build_throws_iff buffer segment sidxSegments initInfos :
  let sidx := match sidxSegments with Some l => l | None => nil end in
  timingInfos true buffer false segment sidxSegments initInfos
  = Throws "invalid assertion"
  <-> ((getTrackFragmentDecodeTime buffer < 0
        /\ ISegment.time segment = None
        /\ eqb (chosenTimescale segment initInfos)
               (ISegment.timescale segment) = true
        /\ (sidx = nil
            \/ exists first rest,
                 sidx = first :: rest /\ ISidxSegment.time first < 0))
       \/ (getDurationFromTrun buffer < 0
           /\ ISegment.duration segment = None
           /\ (sidx = nil \/ sidxDurationSum sidx < 0))).
Proof.
  cbv zeta. rewrite nonchunked_unfolded. cbv zeta.
  set (sidx := match sidxSegments with Some l => l | None => nil end).
  set (ts := chosenTimescale segment initInfos).
  set (startTime := resolveStartTime _ _ _ _ _).
  set (duration := resolveDuration _ _ _).
  assert (Hstart : startTime = None
                   <-> (getTrackFragmentDecodeTime buffer < 0
                        /\ ISegment.time segment = None
                        /\ eqb ts (ISegment.timescale segment) = true
                        /\ (sidx = nil
                            \/ exists first rest,
                                 sidx = first :: rest
                                 /\ ISidxSegment.time first < 0))).
  { unfold startTime. rewrite resolveStartTime_none, segmentStart_none.
    destruct (geb (getTrackFragmentDecodeTime buffer) 0) eqn:E.
    - apply geb_le in E. split; [now intros [? _]|].
      intros [Hlt _]. exfalso. exact (Qlt_not_le _ _ Hlt E).
    - apply geb_lt in E. tauto. }
  assert (Hduration : duration = None
                      <-> (getDurationFromTrun buffer < 0
                           /\ ISegment.duration segment = None
                           /\ (sidx = nil \/ sidxDurationSum sidx < 0))).
  { unfold duration. rewrite resolveDuration_none, segmentDuration_none.
    destruct (geb (getDurationFromTrun buffer) 0) eqn:E.
    - apply geb_le in E. split.
      + intros (Hnone & Hseg & _). exfalso.
        apply (segmentDuration_none segment ts) in Hseg.
        rewrite Hseg in Hnone. discriminate Hnone.
      + intros [Hlt _]. exfalso. exact (Qlt_not_le _ _ Hlt E).
    - apply geb_lt in E. cbn [andb]. tauto. }
  rewrite <- Hstart, <- Hduration.
  destruct startTime, duration; cbn; split;
    try discriminate; try tauto; try (intros [? | ?]; discriminate).
Qed.

(** When the container holds a [tfdt] box and the segment has no
    timestamp offset, the start time is the base decode time as it was
    read: neither the sidx segments nor the time the segment announces
    are used, and no arithmetic is done on it. *)
Theorem tfdt_gives_time buffer segment sidxSegments initInfos :
  0 <= getTrackFragmentDecodeTime buffer ->
  ISegment.timestampOffset segment = None ->
  exists t d,
    getISOBMFFTimingInfos false getTrackFragmentDecodeTime getDurationFromTrun
                          buffer false segment sidxSegments initInfos
    = Returns (Some {| IChunkTimingInfos.time := t;
                       IChunkTimingInfos.duration := Some d;
                       IChunkTimingInfos.timescale :=
                         chosenTimescale segment initInfos |})
    /\ t == getTrackFragmentDecodeTime buffer.
Proof.
  intros Hpos Hoffset. rewrite nonchunked_unfolded. cbv zeta.
  apply geb_le in Hpos. rewrite Hpos. cbn [resolveStartTime].
  eexists. eexists. split; [reflexivity|].
  unfold withTimestampOffset. rewrite Hoffset. apply or_else_Qeq.
Qed.

(** When the container holds a [trun] box and the segment announces no
    duration, the duration is the one read in the box, with nothing to
    check it against: neither the sidx segments nor the tolerance are
    used, and no arithmetic is done on it. *)
Theorem trun_gives_duration buffer segment sidxSegments initInfos :
  0 <= getDurationFromTrun buffer ->
  ISegment.duration segment = None ->
  exists t d,
    getISOBMFFTimingInfos false getTrackFragmentDecodeTime getDurationFromTrun
                          buffer false segment sidxSegments initInfos
    = Returns (Some {| IChunkTimingInfos.time := t;
                       IChunkTimingInfos.duration := Some d;
                       IChunkTimingInfos.timescale :=
                         chosenTimescale segment initInfos |})
    /\ d == getDurationFromTrun buffer.
Proof.
  intros Hpos Hduration. rewrite nonchunked_unfolded. cbv zeta.
  apply geb_le in Hpos. rewrite Hpos.
  rewrite (segmentDuration_fallback _ _ Hduration).
  cbn [andb resolveDuration].
  eexists. eexists. split; [reflexivity|]. apply or_else_Qeq.
Qed.

End WithParsers.

(** *** The scenarios *)

(** A base decode time of 90000 read at the timescale 90000 of the init
    segment is the start time, whatever the segment announces. *)
Lemma tfdt_gives_time_witness :
  exists t d,
    getISOBMFFTimingInfos false Scenarios.tfdtAt90000 Scenarios.noBox
                          [] false Scenarios.openSegment None
                          (Some Scenarios.initInfos90k)
    = Returns (Some {| IChunkTimingInfos.time := t;
                       IChunkTimingInfos.duration := Some d;
                       IChunkTimingInfos.timescale := 90000 |})
    /\ t == 90000.
Proof.
  exact (tfdt_gives_time Scenarios.tfdtAt90000 Scenarios.noBox []
                         Scenarios.openSegment None
                         (Some Scenarios.initInfos90k)
                         ltac:(vm_compute; discriminate) eq_refl).
Defined.

(** A [trun] duration of 3 for a segment that announces none. *)
Lemma trun_gives_duration_witness :
  exists t d,
    getISOBMFFTimingInfos false Scenarios.noBox MoreScenarios.trunOfThree
                          [] false Scenarios.openSegment None None
    = Returns (Some {| IChunkTimingInfos.time := t;
                       IChunkTimingInfos.duration := Some d;
                       IChunkTimingInfos.timescale := 1 |})
    /\ d == 3.
Proof.
  exact (trun_gives_duration Scenarios.noBox MoreScenarios.trunOfThree []
                             Scenarios.openSegment None None
                             ltac:(vm_compute; discriminate) eq_refl).
Defined.

End IsobmffTimingMore.

(** ** The core observer, further *)
Module CoreObserverMore.
Import Js JsFacts Reference Cancellation CoreObserver CoreObserverFacts.
Import CoreTeardown.

Lemma emitters_removed (ls : list Listener) :
  emitters (filter (fun l' => negb (Listener_eqb EmitCorePlaybackObservation l'))
                   ls) = 0%nat.
Proof.
  unfold emitters. induction ls as [|l ls IH]; [reflexivity|].
  cbn [filter]. destruct l; cbn [Listener_eqb negb]; [exact IH|].
  cbn [filter Listener_eqb]. exact IH.
Qed.

Section WithCollaborators.

Variable X : Collaborators.
Variable autoPlay : bool.

(** *** The direction of the correction *)

(** The correction only ever moves the wanted position backwards: after
    [updateWantedPositionIfAfterManifest], the wanted position of the
    observation is at most what it was. *)
Theorem correction_never_forward
        (observation : IPlaybackObservation.t X)
        (manifest : IManifestMetadata.t (ManifestInternals X)) (h : Heap) :
  ObservationPosition.getWanted
    (updateWantedPositionIfAfterManifest
       observation manifest h (IPlaybackObservation.position observation))
  <= ObservationPosition.getWanted
       (h (IPlaybackObservation.position observation)).
Proof.
  unfold updateWantedPositionIfAfterManifest.
  destruct (negb (IManifestMetadata.isDynamic manifest)
            || IManifestMetadata.isLastPeriodKnown manifest);
    [|apply Qle_refl].
  destruct (lastPeriodOf manifest) as [lastPeriod|]; [|apply Qle_refl].
  destruct (IPeriod.end_ lastPeriod) as [lastEnd|]; [|apply Qle_refl].
  cbv zeta.
  destruct (geb _ (IPeriod.start lastPeriod)); [|apply Qle_refl].
  destruct (geb _ (lastEnd - 1)) eqn:Hwanted; [|apply Qle_refl].
  cbn [andb].
  destruct (lastSegmentProbablyNotLoaded observation); [|apply Qle_refl].
  rewrite forceWantedPositionOf_wanted. now apply geb_le.
Qed.

(** *** The teardown *)

Lemma sameWiring_tornDown (w w' : World X) :
  sameWiring w w' -> tornDown w -> tornDown w'.
Proof.
  unfold sameWiring, tornDown, released, registeredCleanups.
  intros (A1 & _ & _ & A2 & A3 & A4 & A5 & A6) Hw.
  rewrite A1, A2, A3, A4, A5, A6. exact Hw.
Qed.

(** [canceller.cancel()] disposes [newRef] and unregisters the two
    listeners. *)
Lemma cancelCanceller_tornDown (w : World X) :
  tornDown w -> tornDown (cancelCanceller w).
Proof.
  unfold cancelCanceller, tornDown.
  destruct (isCancelled (canceller w)) eqn:Hc.
  - rewrite Hc. auto.
  - intros (-> & Hs & Ho). unfold registeredCleanups, released.
    destruct (disposed (speed (env w)));
      destruct (disposed (observationRef (env w)));
      cbn -[emitters]; rewrite ?emitters_removed;
      (split; [reflexivity|]); split; auto.
Qed.

Lemma runSourceCleanups_tornDown (cs : list SourceCleanup) (w : World X) :
  tornDown w ->
  tornDown (fold_left (fun acc c => runSourceCleanup c acc) cs w).
Proof.
  revert w. induction cs as [|c cs IH]; intros w Hw; [exact Hw|].
  cbn [fold_left]. apply IH.
  destruct c; cbn [runSourceCleanup]; [|exact Hw].
  now apply cancelCanceller_tornDown.
Qed.

Lemma cancelLinked_tornDown (which : LinkedSignal) (w : World X) :
  tornDown w -> tornDown (cancelLinked which w).
Proof.
  intros Hw. unfold cancelLinked.
  destruct (isCancelled (linked which (env w))); [exact Hw|].
  change (tornDown
            (fold_left (fun acc c => runSourceCleanup c acc)
                       (cleanups (linked which (env w)))
                       (with_env (with_linked which
                                    (mark (linked which (env w))) (env w))
                                 w))).
  apply runSourceCleanups_tornDown. exact Hw.
Qed.

Lemma step_tornDown (s : Step X) (w : World X) :
  tornDown w -> tornDown (step autoPlay s w).
Proof.
  intros Hw. destruct s as [o|v|l p|v|m|ms td|src id|id|which];
    cbn [step]; try exact Hw.
  - unfold observationRef_setValue.
    destruct (disposed (observationRef (env w))); [exact Hw|].
    eapply sameWiring_tornDown; [apply notify_sameWiring|]. exact Hw.
  - unfold speed_setValue.
    destruct (disposed (speed (env w))); [exact Hw|].
    eapply sameWiring_tornDown; [apply notify_sameWiring|]. exact Hw.
  - unfold tornDown, released, registeredCleanups in *.
    destruct src;
      cbn [addSourceListener with_env with_speed with_observationRef env
           newRef speed observationRef addListener listeners canceller
           disposed];
      rewrite ?emitters_app; cbn [emitters filter Listener_eqb List.length];
      rewrite ?Nat.add_0_r; exact Hw.
  - now apply cancelLinked_tornDown.
Qed.

Lemma run_tornDown (steps : list (Step X)) (w : World X) :
  tornDown w -> tornDown (run autoPlay steps w).
Proof.
  unfold run. revert w.
  induction steps as [|s steps IH]; intros w Hw; [exact Hw|].
  cbn [fold_left]. apply IH. now apply step_tornDown.
Qed.

Lemma transform_tornDown (e0 : Env X nat nat) :
  tornDown (transform autoPlay e0).
Proof.
  unfold tornDown, released, registeredCleanups.
  destruct e0 as [? ? ? ? ? [? ? [|]] [? ? [|]] [[|] ?] [[|] ?] ?];
    cbv [transform linkToSignal onUpdate sourceDisposed newSharedReference
         registerOnCanceller runCancellerCleanup addSourceListener
         constructCorePlaybackObservation emits
         linked with_linked log foreign foreignSignal foreignReference
         with_heap with_env with_canceller with_newRef with_speed
         with_observationRef isCancelled store mark clear fresh create
         dispose addListener
         cancelled cleanups disposed listeners value getValue
         clearSignal emitCurrentValue
         env canceller newRef
         heap manifest mediaSource textDisplayer initialPlayPerformed speed
         observationRef parentObserverCancelSignal fnCancelSignal trace
         fst snd];
    cbn [app]; rewrite ?emitters_foreign;
    repeat split; try discriminate; auto.
Qed.

(** Once [parentObserverCancelSignal] or [fnCancelSignal] is cancelled,
    before the setup or at any time after it, [newRef] is disposed,
    [emitCorePlaybackObservation] is registered on neither source
    reference, and an accepted update of the speed or of the base
    observation only stores its value: no core observation is constructed
    and [newRef] is as it was. (The cleanup that cancels the canceller
    stays registered on the other linked signal as long as that signal is
    active: the theorem says nothing of it.) *)
Theorem cancelled_builder_released (e0 : Env X nat nat)
        (steps : list (Step X)) (which : LinkedSignal) :
  let w := run autoPlay steps (createCorePlaybackObserver autoPlay e0) in
  cancelled (linked which (env w)) = true ->
  released w
  /\ forall u : Update X,
       accepted u w ->
       step autoPlay (stepOf u) w = stored u w
       /\ trace (env (step autoPlay (stepOf u) w)) = trace (env w)
       /\ newRef (step autoPlay (stepOf u) w) = newRef w.
Proof.
  cbv zeta. unfold createCorePlaybackObserver.
  set (w := run autoPlay steps (transform autoPlay e0)).
  intros Hcancelled.
  assert (Hc : isCancelled (canceller w) = true).
  { pose proof (proj1 (run_linksHeld X autoPlay steps _
                                      (transform_linksHeld X autoPlay e0)))
      as Hlinks.
    fold w in Hlinks. rewrite Hlinks. destruct which; cbn [linked] in Hcancelled;
      rewrite Hcancelled; [reflexivity | apply orb_true_r]. }
  assert (Hreleased : released w).
  { pose proof (run_tornDown steps _ (transform_tornDown e0)) as Ht.
    fold w in Ht. unfold tornDown in Ht. now rewrite Hc in Ht. }
  split; [exact Hreleased|].
  destruct Hreleased as (_ & Hs & Ho).
  intros u Hacc.
  assert (Hstep : step autoPlay (stepOf u) w = stored u w).
  { destruct u as [v|o]; cbn [stepOf step accepted stored] in *.
    - unfold speed_setValue. rewrite Hacc. now apply notify_others.
    - unfold observationRef_setValue. rewrite Hacc. now apply notify_others. }
  rewrite Hstep. split; [reflexivity|].
  split; [apply stored_trace | now destruct u].
Qed.

End WithCollaborators.

(** After [fnCancelSignal] is cancelled, a speed update is accepted by
    the speed reference and reaches no one. *)
Lemma cancelled_builder_released_witness :
  let w :=
    run false [SetSpeed 2; Cancel FnCancelSignal]
        (createCorePlaybackObserver
           false
           (Scenarios.environment Scenarios.finishedManifest 50 [(0, 90)]
                                  false)) in
  released w
  /\ step false (SetSpeed 3) w = stored (UpdateSpeed 3) w
  /\ ICorePlaybackObservation.speed (value (newRef (step false (SetSpeed 3) w)))
     = 2.
Proof.
  cbv zeta.
  destruct (cancelled_builder_released
              Scenarios.plain false
              (Scenarios.environment Scenarios.finishedManifest 50 [(0, 90)]
                                     false)
              [SetSpeed 2; Cancel FnCancelSignal] FnCancelSignal eq_refl)
    as [Hreleased Hupdates].
  destruct (Hupdates (UpdateSpeed 3) eq_refl) as (Hstep & _ & Hnew).
  split; [exact Hreleased|]. split; [exact Hstep|].
  cbn [stepOf] in Hnew. rewrite Hnew. reflexivity.
Defined.

End CoreObserverMore.

(** ** [parseStyleBlocks] *)
Module ParseStyleBlocksFacts.
Import ParseStyleBlocks.

Local Open Scope string_scope.

(** *** Strings *)

Lemma append_assoc (a b c : string) : (a ++ b) ++ c = a ++ (b ++ c).
Proof. induction a as [|x a IH]; cbn; [reflexivity | now rewrite IH]. Qed.

Lemma append_empty_r (a : string) : a ++ "" = a.
Proof. induction a as [|x a IH]; cbn; [reflexivity | now rewrite IH]. Qed.

Lemma stripPrefix_append (p s : string) : stripPrefix p (p ++ s) = Some s.
Proof.
  induction p as [|x p IH]; cbn; [reflexivity|].
  now rewrite Ascii.eqb_refl.
Qed.

(** *** The inner loops *)

(** The lines taken by the style loop do not depend on the text it
    started with, and are appended to it. *)
Lemma collectStyle_acc (lines : list string) (acc : string) :
  collectStyle lines acc
  = (acc ++ fst (collectStyle lines ""), snd (collectStyle lines "")).
Proof.
  revert acc. induction lines as [|line rest IH]; intros acc; cbn.
  - now rewrite append_empty_r.
  - destruct (isStyleLine line); cbn.
    + rewrite (IH (acc ++ line)), (IH line). cbn.
      now rewrite append_assoc.
    + now rewrite append_empty_r.
Qed.

(** The style loop takes the leading style lines, all of them: it stops
    at the first line that is empty or holds a closing brace. *)
Lemma collectStyle_body (body : list string) (close : string)
      (tail : list string) (acc : string) :
  Forall (fun line => isStyleLine line = true) body ->
  isStyleLine close = false ->
  collectStyle (body ++ close :: tail) acc
  = (acc ++ String.concat "" body, close :: tail).
Proof.
  intros Hbody Hclose. revert acc.
  induction Hbody as [|line body Hline _ IH]; intros acc; cbn [app collectStyle].
  - rewrite Hclose. cbn. now rewrite append_empty_r.
  - rewrite Hline, IH. f_equal. rewrite append_assoc. f_equal.
    destruct body; cbn; [now rewrite append_empty_r | reflexivity].
Qed.

Lemma collectStyle_length (lines : list string) (acc : string) :
  (List.length (snd (collectStyle lines acc)) <= List.length lines)%nat.
Proof.
  revert acc. induction lines as [|line rest IH]; intros acc; cbn; [lia|].
  destruct (isStyleLine line); cbn; [|lia].
  specialize (IH (acc ++ line)). lia.
Qed.

Lemma collectClassNames_length (lines : list string) (names : list string) :
  (List.length (snd (collectClassNames lines names)) <= List.length lines)%nat.
Proof.
  revert names. induction lines as [|line rest IH]; intros names; cbn; [lia|].
  destruct (isEmpty line); cbn; [lia|].
  destruct (matchCueClass line); cbn; [|lia].
  specialize (IH (names ++ s :: nil)%list). lia.
Qed.

(** The class name loop takes the leading selector lines, all of them. *)
Lemma collectClassNames_selectors
      (selectors : list (string * string)) (next : list string)
      (names : list string) :
  Forall (fun sel => matchCueClass (fst sel) = Some (snd sel)) selectors ->
  match next with
  | line :: _ => isEmpty line = true \/ matchCueClass line = None
  | nil => True
  end ->
  collectClassNames (map fst selectors ++ next) names
  = ((names ++ map snd selectors)%list, next).
Proof.
  intros Hsel Hnext. revert names.
  induction Hsel as [|[line name] selectors Hline _ IH]; intros names;
    cbn [map app fst snd] in *.
  - rewrite app_nil_r. destruct next as [|line next]; [reflexivity|].
    cbn. destruct (isEmpty line) eqn:He; [reflexivity|].
    destruct Hnext as [Hn | Hn]; [discriminate | now rewrite Hn].
  - cbn [collectClassNames].
    assert (He : isEmpty line = false).
    { destruct line; [discriminate Hline | reflexivity]. }
    rewrite He, Hline, IH. now rewrite <- app_assoc.
Qed.

(** *** The loop over the lines of a block *)

Section WithDefaults.

Variable createDefaultStyleElements : IStyleElements.
Variable inheritedProperty : string -> bool.

Local Abbreviation blockLoop := (blockLoop inheritedProperty).
Local Abbreviation parseStyleBlock := (parseStyleBlock inheritedProperty).
Local Abbreviation parseFrom := (parseFrom inheritedProperty).
Local Abbreviation parseStyleBlocks :=
  (parseStyleBlocks createDefaultStyleElements inheritedProperty).
Local Abbreviation addStyle := (addStyle inheritedProperty).
Local Abbreviation addStyles := (addStyles inheritedProperty).

(** One turn of the loop, whatever the fuel left. *)
Lemma blockLoop_turn (fuel : nat) (line : string) (rest : list string)
      (styles : Styles) :
  blockLoop (S fuel) (line :: rest) styles
  = if contains "::cue {" line then
      blockLoop fuel
                (List.tl (snd (collectStyle rest (global styles))))
                {| classes := classes styles;
                   global := fst (collectStyle rest (global styles)) |}
    else
      match addStyles
              (fst (collectClassNames (line :: rest) nil))
              (fst (collectStyle
                      (snd (collectClassNames (line :: rest) nil)) ""))
              (classes styles)
      with
      | Some classes' =>
          blockLoop fuel
                    (List.tl
                       (snd (collectStyle
                               (snd (collectClassNames (line :: rest) nil))
                               "")))
                    {| classes := classes'; global := global styles |}
      | None => OutsideModel
      end.
Proof.
  cbn [ParseStyleBlocks.blockLoop].
  destruct (contains "::cue {" line).
  - now destruct (collectStyle rest (global styles)).
  - destruct (collectClassNames (line :: rest) nil) as [names lines'].
    cbn [fst snd]. now destruct (collectStyle lines' "").
Qed.

Lemma tl_length_cue (rest : list string) (acc : string) :
  (List.length (List.tl (snd (collectStyle rest acc)))
   <= List.length rest)%nat.
Proof.
  pose proof (collectStyle_length rest acc).
  destruct (snd (collectStyle rest acc)); cbn in *; lia.
Qed.

Lemma tl_length_rule (line : string) (rest : list string) :
  (List.length
     (List.tl (snd (collectStyle
                      (snd (collectClassNames (line :: rest) nil)) "")))
   <= List.length rest)%nat.
Proof.
  pose proof (collectClassNames_length (line :: rest) nil) as H1.
  pose proof (collectStyle_length
                (snd (collectClassNames (line :: rest) nil)) "") as H2.
  destruct (snd (collectStyle _ "")); cbn in *; lia.
Qed.

(** With as much fuel as there are lines, more fuel changes nothing:
    each turn of the loop moves [index] forward by one line at least. *)
Lemma blockLoop_fuel (fuel fuel' : nat) (lines : list string)
      (styles : Styles) :
  (List.length lines <= fuel)%nat ->
  (List.length lines <= fuel')%nat ->
  blockLoop fuel lines styles = blockLoop fuel' lines styles.
Proof.
  revert fuel' lines styles.
  induction fuel as [|fuel IH]; intros fuel' lines styles H1 H2.
  - destruct lines; [now destruct fuel' | cbn in H1; lia].
  - destruct lines as [|line rest]; [now destruct fuel'|].
    destruct fuel' as [|fuel']; [cbn in H2; lia|].
    cbn [List.length] in H1, H2. rewrite !blockLoop_turn.
    destruct (contains "::cue {" line).
    + pose proof (tl_length_cue rest (global styles)). apply IH; lia.
    + destruct (addStyles _ _ _); [|reflexivity].
      pose proof (tl_length_rule line rest). apply IH; lia.
Qed.

(** The loop ends within its fuel. *)
Lemma blockLoop_ends (fuel : nat) (lines : list string) (styles : Styles) :
  (List.length lines <= fuel)%nat ->
  blockLoop fuel lines styles = OutsideModel
  \/ exists styles', blockLoop fuel lines styles = Parsed styles'.
Proof.
  revert lines styles.
  induction fuel as [|fuel IH]; intros lines styles H.
  - destruct lines; [right; now exists styles | cbn in H; lia].
  - destruct lines as [|line rest]; [right; now exists styles|].
    cbn [List.length] in H. rewrite blockLoop_turn.
    destruct (contains "::cue {" line).
    + pose proof (tl_length_cue rest (global styles)). apply IH; lia.
    + destruct (addStyles _ _ _); [|now left].
      pose proof (tl_length_rule line rest). apply IH; lia.
Qed.

(** A block, as the loop over what follows its first line. *)
Lemma parseStyleBlock_loop (header : string) (lines : list string)
      (styles : Styles) :
  parseStyleBlock (header :: lines) styles
  = blockLoop (List.length lines) lines styles.
Proof.
  unfold ParseStyleBlocks.parseStyleBlock. cbn [List.length skipn].
  destruct lines as [|line rest]; [reflexivity|].
  cbn [Nat.leb List.length]. apply blockLoop_fuel; cbn; lia.
Qed.

Lemma parseStyleBlock_ends (styleBlock : list string) (styles : Styles) :
  parseStyleBlock styleBlock styles = OutsideModel
  \/ exists styles', parseStyleBlock styleBlock styles = Parsed styles'.
Proof.
  destruct styleBlock as [|header lines]; [right; now exists styles|].
  rewrite parseStyleBlock_loop. apply blockLoop_ends. lia.
Qed.

Lemma parseFrom_stopped (styleBlocks : list (list string)) :
  parseFrom OutsideModel styleBlocks = OutsideModel.
Proof. induction styleBlocks as [|b bs IH]; [reflexivity | exact IH]. Qed.

(** Every loop of [parseStyleBlocks] ends: the function returns its
    styles, unless the input is outside the model. *)
Theorem parseStyleBlocks_ends (styleBlocks : list (list string)) :
  parseStyleBlocks styleBlocks = OutsideModel
  \/ exists styles, parseStyleBlocks styleBlocks = Parsed styles.
Proof.
  unfold ParseStyleBlocks.parseStyleBlocks.
  generalize {| classes := createDefaultStyleElements; global := "" |}.
  induction styleBlocks as [|b bs IH]; intros styles.
  - right. now exists styles.
  - cbn [ParseStyleBlocks.parseFrom fold_left].
    destruct (parseStyleBlock_ends b styles) as [-> | [styles' ->]].
    + left. apply parseFrom_stopped.
    + apply IH.
Qed.

(** *** Blocks that are too short *)

(** The empty list of blocks, and blocks of fewer than two lines, give
    the default classes and an empty global style. *)
Theorem short_blocks_ignored (styleBlocks : list (list string)) :
  Forall (fun styleBlock => (List.length styleBlock < 2)%nat) styleBlocks ->
  parseStyleBlocks styleBlocks
  = Parsed {| classes := createDefaultStyleElements; global := "" |}.
Proof.
  unfold ParseStyleBlocks.parseStyleBlocks.
  generalize {| classes := createDefaultStyleElements; global := "" |}.
  intros styles Hshort.
  induction Hshort as [|b bs Hb _ IH]; [reflexivity|].
  cbn [ParseStyleBlocks.parseFrom fold_left].
  unfold ParseStyleBlocks.parseStyleBlock.
  apply Nat.leb_gt in Hb. rewrite Hb. exact IH.
Qed.

(** *** The two kinds of rules *)

(** A global rule: after the line that opens it, the style lines up to
    the first empty line or closing brace are appended to the global
    style, the closing line is skipped, and what follows is parsed as the
    rest of the block. *)
Theorem global_rule (header open : string) (body : list string)
        (close : string) (tail : list string) (styles : Styles) :
  contains "::cue {" open = true ->
  Forall (fun line => isStyleLine line = true) body ->
  isStyleLine close = false ->
  parseStyleBlock (header :: open :: body ++ close :: tail) styles
  = parseStyleBlock
      (header :: tail)
      {| classes := classes styles;
         global := global styles ++ String.concat "" body |}.
Proof.
  intros Hopen Hbody Hclose. rewrite !parseStyleBlock_loop.
  cbn [List.length]. rewrite blockLoop_turn, Hopen.
  rewrite (collectStyle_body body close tail _ Hbody Hclose).
  cbn [fst snd List.tl]. apply blockLoop_fuel; [|lia].
  rewrite length_app. cbn. lia.
Qed.

(** A class rule: the leading selector lines, up to the first line that
    is no selector, give the class names; the style lines that follow, up
    to the first empty line or closing brace, give the style (selector
    lines found among them, past the first, are style text like any
    other), which is added to every named class; the closing line is
    skipped, and what follows is parsed as the rest of the block. When a
    named class is no own property of the classes and is defined by
    [Object.prototype], the input is outside the model. *)
Theorem class_rule (header : string) (selector : string * string)
        (selectors : list (string * string)) (body : list string)
        (close : string) (tail : list string) (styles : Styles) :
  contains "::cue {" (fst selector) = false ->
  Forall (fun sel => matchCueClass (fst sel) = Some (snd sel))
         (selector :: selectors) ->
  matchCueClass (List.hd close body) = None ->
  Forall (fun line => isStyleLine line = true) body ->
  isStyleLine close = false ->
  parseStyleBlock
    (header :: map fst (selector :: selectors) ++ body ++ close :: tail)
    styles
  = match addStyles (map snd (selector :: selectors))
                    (String.concat "" body) (classes styles) with
    | Some classes' =>
        parseStyleBlock (header :: tail)
                        {| classes := classes'; global := global styles |}
    | None => OutsideModel
    end.
Proof.
  intros Hfirst Hsel Hnext Hbody Hclose. rewrite !parseStyleBlock_loop.
  cbn [map app List.length]. rewrite blockLoop_turn, Hfirst.
  change (fst selector :: map fst selectors ++ body ++ close :: tail)
    with (map fst (selector :: selectors) ++ (body ++ close :: tail))%list.
  rewrite (collectClassNames_selectors
             (selector :: selectors) (body ++ close :: tail) nil Hsel).
  2:{ destruct body as [|line body]; cbn [app List.hd] in *; now right. }
  cbn [fst snd app].
  rewrite (collectStyle_body body close tail "" Hbody Hclose).
  cbn [fst snd List.tl append].
  destruct (addStyles _ _ _); [|reflexivity].
  rewrite parseStyleBlock_loop. apply blockLoop_fuel; [|lia].
  rewrite !length_app, length_map. cbn. lia.
Qed.

(** *** What [forEach] does to the classes *)

(** The value a class has after the style was added to it. *)
Lemma addStyle_value (styleContent : string) (classes classes' : IStyleElements)
      (className : string) :
  addStyle styleContent classes className = Some classes' ->
  classes'
  = setClass className
             (match classes className with
              | Some styleElement => styleElement ++ styleContent
              | None => styleContent
              end)
             classes.
Proof.
  unfold ParseStyleBlocks.addStyle.
  destruct (classes className) as [[|c s]|]; cbn [isEmpty append].
  - now intros [= <-].
  - now intros [= <-].
  - destruct (inheritedProperty className); [discriminate | now intros [= <-]].
Qed.

(** The classes are left outside the model exactly by a name that the
    object does not own and that [Object.prototype] defines. *)
Lemma addStyle_outside (styleContent : string) (classes : IStyleElements)
      (className : string) :
  addStyle styleContent classes className = None
  <-> (classes className = None /\ inheritedProperty className = true).
Proof.
  unfold ParseStyleBlocks.addStyle.
  destruct (classes className) as [s|].
  - destruct (isEmpty s); split; [discriminate | now intros [? _]
                                 | discriminate | now intros [? _]].
  - destruct (inheritedProperty className); split; auto; try discriminate.
    now intros [_ ?].
Qed.

(** For distinct class names, each named class has the style appended to
    its former value, or set when it had none, and every other class is
    left as it is. *)
Theorem addStyles_lookup (classNames : list string) (styleContent : string)
        (classes classes' : IStyleElements) :
  NoDup classNames ->
  addStyles classNames styleContent classes = Some classes' ->
  forall name,
    (In name classNames ->
     classes' name
     = Some (match classes name with
             | Some styleElement => styleElement ++ styleContent
             | None => styleContent
             end))
    /\ (~ In name classNames -> classes' name = classes name).
Proof.
  intros Hnodup. revert classes.
  induction Hnodup as [|className rest Hfresh _ IH]; intros classes Hadd name.
  - cbn in Hadd. injection Hadd as <-. split; [contradiction | reflexivity].
  - cbn [ParseStyleBlocks.addStyles] in Hadd.
    destruct (addStyle styleContent classes className) as [classes1|] eqn:H1;
      [|discriminate].
    apply addStyle_value in H1.
    destruct (IH classes1 Hadd name) as [Hin Hout].
    assert (Hother : forall n, n <> className -> classes1 n = classes n).
    { intros n Hn. rewrite H1. unfold setClass.
      apply String.eqb_neq in Hn. now rewrite Hn. }
    split.
    + intros [<- | Hrest].
      * rewrite (Hout Hfresh), H1. unfold setClass.
        now rewrite String.eqb_refl.
      * rewrite (Hin Hrest), Hother; [reflexivity|].
        intros ->. contradiction.
    + intros Hnot. rewrite Hout, Hother; [reflexivity| |];
        intro; apply Hnot; [left; congruence | now right].
Qed.

(** *** What the parser leaves alone *)

Lemma Forall_collectStyle {P : string -> Prop} (lines : list string)
      (acc : string) :
  Forall P lines -> Forall P (snd (collectStyle lines acc)).
Proof.
  intros H. revert acc. induction H as [|line rest Hl Hr IH]; intros acc; cbn.
  - constructor.
  - destruct (isStyleLine line); cbn; [apply IH | now constructor].
Qed.

Lemma Forall_collectClassNames {P : string -> Prop} (lines : list string)
      (names : list string) :
  Forall P lines -> Forall P (snd (collectClassNames lines names)).
Proof.
  intros H. revert names.
  induction H as [|line rest Hl Hr IH]; intros names; cbn.
  - constructor.
  - destruct (isEmpty line); cbn; [now constructor|].
    destruct (matchCueClass line); cbn; [apply IH | now constructor].
Qed.

Lemma Forall_tl {P : string -> Prop} (lines : list string) :
  Forall P lines -> Forall P (List.tl lines).
Proof. intros H. destruct H; [constructor | assumption]. Qed.

(** *** The inputs the model covers *)

(** A line that names no class of [Object.prototype]. *)
Local Abbreviation namesOwn :=
  (fun line : string =>
     match matchCueClass line with
     | Some className => negb (inheritedProperty className)
     | None => true
     end = true).

Lemma collectClassNames_names (lines : list string) (names : list string) :
  Forall namesOwn lines ->
  Forall (fun name => inheritedProperty name = false) names ->
  Forall (fun name => inheritedProperty name = false)
         (fst (collectClassNames lines names)).
Proof.
  intros Hlines. revert names.
  induction Hlines as [|line rest Hline _ IH]; intros names Hnames; cbn.
  - exact Hnames.
  - destruct (isEmpty line); [exact Hnames|].
    destruct (matchCueClass line) as [className|]; [|exact Hnames].
    apply IH, Forall_app. split; [exact Hnames|].
    constructor; [|constructor]. now apply negb_true_iff.
Qed.

Lemma addStyles_covered (classNames : list string) (styleContent : string)
      (classes : IStyleElements) :
  Forall (fun name => inheritedProperty name = false) classNames ->
  exists classes', addStyles classNames styleContent classes = Some classes'.
Proof.
  intros Hnames. revert classes.
  induction Hnames as [|className rest Hname _ IH]; intros classes.
  - now exists classes.
  - cbn [ParseStyleBlocks.addStyles]. unfold ParseStyleBlocks.addStyle.
    rewrite Hname.
    destruct (classes className) as [styleElement|];
      [destruct (isEmpty styleElement)|]; apply IH.
Qed.

Lemma blockLoop_covered (fuel : nat) (lines : list string) (styles : Styles) :
  (List.length lines <= fuel)%nat ->
  Forall namesOwn lines ->
  exists styles', blockLoop fuel lines styles = Parsed styles'.
Proof.
  revert lines styles.
  induction fuel as [|fuel IH]; intros lines styles Hfuel Hlines.
  - destruct lines; [now exists styles | cbn in Hfuel; lia].
  - destruct lines as [|line rest]; [now exists styles|].
    cbn [List.length] in Hfuel. rewrite blockLoop_turn.
    destruct (contains "::cue {" line).
    + pose proof (tl_length_cue rest (global styles)).
      apply IH; [lia|].
      apply Forall_tl, Forall_collectStyle. now inversion Hlines.
    + destruct (addStyles_covered
                  (fst (collectClassNames (line :: rest) nil))
                  (fst (collectStyle
                          (snd (collectClassNames (line :: rest) nil)) ""))
                  (classes styles)) as [classes' ->].
      { apply collectClassNames_names; [exact Hlines | constructor]. }
      pose proof (tl_length_rule line rest).
      apply IH; [lia|].
      now apply Forall_tl, Forall_collectStyle, Forall_collectClassNames.
Qed.

Lemma parseFrom_covered (styleBlocks : list (list string)) (start : Styles) :
  namesNoInherited inheritedProperty styleBlocks = true ->
  exists styles, parseFrom (Parsed start) styleBlocks = Parsed styles.
Proof.
  revert start.
  induction styleBlocks as [|b bs IH]; intros start Hcovered.
  - now exists start.
  - cbn [namesNoInherited forallb] in Hcovered.
    apply andb_true_iff in Hcovered. destruct Hcovered as [Hb Hbs].
    cbn [ParseStyleBlocks.parseFrom fold_left].
    destruct b as [|header lines]; [now apply IH|].
    rewrite parseStyleBlock_loop. cbn [skipn] in Hb.
    destruct (blockLoop_covered (List.length lines) lines start)
      as [mid ->]; [lia | | now apply IH].
    apply Forall_forall. intros line Hin.
    exact (proj1 (forallb_forall _ _) Hb line Hin).
Qed.

Lemma namesNoInherited_app (first others : list (list string)) :
  namesNoInherited inheritedProperty (first ++ others) = true ->
  namesNoInherited inheritedProperty first = true
  /\ namesNoInherited inheritedProperty others = true.
Proof.
  unfold namesNoInherited. rewrite forallb_app. apply andb_true_iff.
Qed.

Lemma blockLoop_no_selector (fuel : nat) (lines : list string)
      (styles : Styles) :
  (List.length lines <= fuel)%nat ->
  Forall (fun line => matchCueClass line = None) lines ->
  exists global',
    blockLoop fuel lines styles
    = Parsed {| classes := classes styles; global := global' |}.
Proof.
  revert lines styles.
  induction fuel as [|fuel IH]; intros lines styles Hfuel Hlines.
  - destruct lines; [|cbn in Hfuel; lia].
    exists (global styles). now destruct styles.
  - destruct lines as [|line rest].
    { exists (global styles). now destruct styles. }
    cbn [List.length] in Hfuel. rewrite blockLoop_turn.
    destruct (contains "::cue {" line).
    + pose proof (tl_length_cue rest (global styles)).
      apply (IH _ {| classes := classes styles;
                     global := fst (collectStyle rest (global styles)) |});
        [lia|].
      apply Forall_tl, Forall_collectStyle. now inversion Hlines.
    + assert (Hnames : collectClassNames (line :: rest) nil
                       = (nil, line :: rest)).
      { cbn. destruct (isEmpty line); [reflexivity|].
        inversion Hlines as [|? ? Hline _]. now rewrite Hline. }
      pose proof (tl_length_rule line rest) as Hlen.
      rewrite Hnames in *. cbn [fst snd ParseStyleBlocks.addStyles] in *.
      apply (IH _ {| classes := classes styles; global := global styles |});
        [lia|].
      now apply Forall_tl, Forall_collectStyle.
Qed.

(** Blocks in which no line after the first is a class selector leave
    the classes as the defaults are, whatever [Object.prototype]
    defines. *)
Theorem no_selector_no_class (styleBlocks : list (list string)) :
  Forall (fun styleBlock =>
            Forall (fun line => matchCueClass line = None)
                   (List.skipn 1 styleBlock))
         styleBlocks ->
  exists global',
    parseStyleBlocks styleBlocks
    = Parsed {| classes := createDefaultStyleElements; global := global' |}.
Proof.
  unfold ParseStyleBlocks.parseStyleBlocks.
  generalize "". generalize createDefaultStyleElements.
  intros cls g H. revert g.
  induction H as [|b bs Hb _ IH]; intros g.
  - now exists g.
  - cbn [ParseStyleBlocks.parseFrom fold_left].
    destruct b as [|header lines].
    + apply IH.
    + rewrite parseStyleBlock_loop.
      destruct (blockLoop_no_selector
                  (List.length lines) lines
                  {| classes := cls; global := g |}) as [g' ->];
        [lia | exact Hb |]. apply IH.
Qed.

Lemma blockLoop_no_cue (fuel : nat) (lines : list string)
      (styles styles' : Styles) :
  Forall (fun line => contains "::cue {" line = false) lines ->
  blockLoop fuel lines styles = Parsed styles' ->
  global styles' = global styles.
Proof.
  revert lines styles.
  induction fuel as [|fuel IH]; intros lines styles Hlines Hrun.
  - destruct lines; [now injection Hrun as <- | discriminate].
  - destruct lines as [|line rest]; [now injection Hrun as <-|].
    rewrite blockLoop_turn in Hrun.
    inversion Hlines as [|? ? Hline Hrest]. subst. rewrite Hline in Hrun.
    destruct (addStyles _ _ _) as [classes'|]; [|discriminate].
    apply IH in Hrun; [exact Hrun|].
    now apply Forall_tl, Forall_collectStyle, Forall_collectClassNames.
Qed.

(** Without a line that opens a global rule, a parse that ends leaves
    the global style empty. *)
Lemma parsed_no_cue_no_global (styleBlocks : list (list string)) (styles : Styles) :
  Forall (fun styleBlock =>
            Forall (fun line => contains "::cue {" line = false)
                   (List.skipn 1 styleBlock))
         styleBlocks ->
  parseStyleBlocks styleBlocks = Parsed styles ->
  global styles = "".
Proof.
  unfold ParseStyleBlocks.parseStyleBlocks.
  enough (Hgen : forall start,
             Forall (fun styleBlock =>
                       Forall (fun line => contains "::cue {" line = false)
                              (List.skipn 1 styleBlock))
                    styleBlocks ->
             parseFrom (Parsed start) styleBlocks = Parsed styles ->
             global styles = global start)
    by (intros H Hrun; exact (Hgen _ H Hrun)).
  intros start H. revert start.
  induction H as [|b bs Hb _ IH]; intros start Hrun.
  - now injection Hrun as <-.
  - cbn [ParseStyleBlocks.parseFrom fold_left] in Hrun.
    destruct (parseStyleBlock_ends b start) as [Hb' | [mid Hb']];
      rewrite Hb' in Hrun.
    + fold (parseFrom OutsideModel bs) in Hrun.
      now rewrite parseFrom_stopped in Hrun.
    + rewrite (IH mid Hrun).
      destruct b as [|header lines]; [now injection Hb' as <-|].
      rewrite parseStyleBlock_loop in Hb'.
      exact (blockLoop_no_cue _ _ _ _ Hb Hb').
Qed.

(** When no line after the first of any block holds the text that opens
    a global rule, the function returns an empty global style (for
    blocks that name no class of [Object.prototype]). *)
Theorem no_cue_no_global (styleBlocks : list (list string)) :
  namesNoInherited inheritedProperty styleBlocks = true ->
  Forall (fun styleBlock =>
            Forall (fun line => contains "::cue {" line = false)
                   (List.skipn 1 styleBlock))
         styleBlocks ->
  exists styles,
    parseStyleBlocks styleBlocks = Parsed styles
    /\ global styles = "".
Proof.
  intros Hcovered Hlines.
  destruct (parseFrom_covered
              styleBlocks
              {| classes := createDefaultStyleElements; global := "" |}
              Hcovered) as [styles Hrun].
  exists styles. split; [exact Hrun|].
  exact (parsed_no_cue_no_global styleBlocks styles Hlines Hrun).
Qed.

(** *** Classes only grow *)

Lemma addStyles_extends (classNames : list string) (styleContent : string)
      (classes classes' : IStyleElements) :
  addStyles classNames styleContent classes = Some classes' ->
  forall name value,
    classes name = Some value ->
    exists added, classes' name = Some (value ++ added).
Proof.
  revert classes.
  induction classNames as [|className rest IH]; intros classes Hadd name value Hv.
  - injection Hadd as <-. exists "". now rewrite append_empty_r.
  - cbn [ParseStyleBlocks.addStyles] in Hadd.
    destruct (addStyle styleContent classes className) as [classes1|] eqn:H1;
      [|discriminate].
    apply addStyle_value in H1.
    assert (H1v : exists added, classes1 name = Some (value ++ added)).
    { rewrite H1. unfold setClass.
      destruct (String.eqb_spec name className) as [-> | _].
      - rewrite Hv. now exists styleContent.
      - exists "". now rewrite append_empty_r. }
    destruct H1v as [added1 H1v].
    destruct (IH classes1 Hadd name _ H1v) as [added2 H2].
    exists (added1 ++ added2). now rewrite <- append_assoc.
Qed.

Lemma blockLoop_extends (fuel : nat) (lines : list string)
      (styles styles' : Styles) :
  blockLoop fuel lines styles = Parsed styles' ->
  forall name value,
    classes styles name = Some value ->
    exists added, classes styles' name = Some (value ++ added).
Proof.
  revert lines styles.
  induction fuel as [|fuel IH]; intros lines styles Hrun name value Hv.
  - destruct lines; [|discriminate]. injection Hrun as <-.
    exists "". now rewrite append_empty_r.
  - destruct lines as [|line rest].
    { injection Hrun as <-. exists "". now rewrite append_empty_r. }
    rewrite blockLoop_turn in Hrun.
    destruct (contains "::cue {" line).
    + exact (IH _ _ Hrun name value Hv).
    + destruct (addStyles _ _ _) as [classes1|] eqn:Hadd; [|discriminate].
      destruct (addStyles_extends _ _ _ _ Hadd name value Hv) as [a1 H1].
      destruct (IH _ _ Hrun name _ H1) as [a2 H2].
      exists (a1 ++ a2). now rewrite <- append_assoc.
Qed.

(** A parse that ends has kept every default class, its default style
    first. *)
Lemma parsed_defaults_kept (styleBlocks : list (list string)) (styles : Styles) :
  parseStyleBlocks styleBlocks = Parsed styles ->
  forall name value,
    createDefaultStyleElements name = Some value ->
    exists added, classes styles name = Some (value ++ added).
Proof.
  unfold ParseStyleBlocks.parseStyleBlocks.
  enough (Hgen : forall start,
             parseFrom (Parsed start) styleBlocks = Parsed styles ->
             forall name value,
               classes start name = Some value ->
               exists added, classes styles name = Some (value ++ added))
    by (intros Hrun name value Hv; exact (Hgen _ Hrun name value Hv)).
  induction styleBlocks as [|b bs IH]; intros start Hrun name value Hv.
  - injection Hrun as <-. exists "". now rewrite append_empty_r.
  - cbn [ParseStyleBlocks.parseFrom fold_left] in Hrun.
    destruct (parseStyleBlock_ends b start) as [Hb | [mid Hb]];
      rewrite Hb in Hrun.
    + fold (parseFrom OutsideModel bs) in Hrun.
      now rewrite parseFrom_stopped in Hrun.
    + assert (Hmid : exists added, classes mid name = Some (value ++ added)).
      { destruct b as [|header lines].
        - injection Hb as <-. exists "". now rewrite append_empty_r.
        - rewrite parseStyleBlock_loop in Hb.
          exact (blockLoop_extends _ _ _ _ Hb name value Hv). }
      destruct Hmid as [a1 Hmid].
      destruct (IH mid Hrun name _ Hmid) as [a2 H2].
      exists (a1 ++ a2). now rewrite <- append_assoc.
Qed.

(** No class is ever removed or overwritten: the function returns
    classes in which every default class is still there, its default
    style first, and what the blocks add after it (for blocks that name
    no class of [Object.prototype]). *)
Theorem defaults_kept (styleBlocks : list (list string)) :
  namesNoInherited inheritedProperty styleBlocks = true ->
  exists styles,
    parseStyleBlocks styleBlocks = Parsed styles
    /\ forall name value,
         createDefaultStyleElements name = Some value ->
         exists added, classes styles name = Some (value ++ added).
Proof.
  intros Hcovered.
  destruct (parseFrom_covered
              styleBlocks
              {| classes := createDefaultStyleElements; global := "" |}
              Hcovered) as [styles Hrun].
  exists styles. split; [exact Hrun|].
  exact (parsed_defaults_kept styleBlocks styles Hrun).
Qed.

(** *** The global style, block after block *)

Lemma blockLoop_global (fuel : nat) (lines : list string)
      (start1 start2 end1 end2 : Styles) :
  blockLoop fuel lines start1 = Parsed end1 ->
  blockLoop fuel lines start2 = Parsed end2 ->
  exists added,
    global end1 = global start1 ++ added
    /\ global end2 = global start2 ++ added.
Proof.
  revert lines start1 start2.
  induction fuel as [|fuel IH]; intros lines start1 start2 H1 H2.
  - destruct lines; [|discriminate].
    injection H1 as <-. injection H2 as <-.
    exists "". now rewrite !append_empty_r.
  - destruct lines as [|line rest].
    { injection H1 as <-. injection H2 as <-.
      exists "". now rewrite !append_empty_r. }
    rewrite blockLoop_turn in H1, H2.
    destruct (contains "::cue {" line).
    + rewrite (collectStyle_acc rest (global start1)) in H1.
      rewrite (collectStyle_acc rest (global start2)) in H2.
      cbn [fst snd] in H1, H2.
      destruct (IH _ _ _ H1 H2) as (added & E1 & E2). cbn [global] in E1, E2.
      exists (fst (collectStyle rest "") ++ added).
      now rewrite E1, E2, !append_assoc.
    + destruct (addStyles _ _ (classes start1)); [|discriminate].
      destruct (addStyles _ _ (classes start2)); [|discriminate].
      exact (IH _ _ _ H1 H2).
Qed.

Lemma parseFrom_global (styleBlocks : list (list string))
      (start1 start2 end1 end2 : Styles) :
  parseFrom (Parsed start1) styleBlocks = Parsed end1 ->
  parseFrom (Parsed start2) styleBlocks = Parsed end2 ->
  exists added,
    global end1 = global start1 ++ added
    /\ global end2 = global start2 ++ added.
Proof.
  revert start1 start2.
  induction styleBlocks as [|b bs IH]; intros start1 start2 H1 H2.
  - injection H1 as <-. injection H2 as <-.
    exists "". now rewrite !append_empty_r.
  - cbn [ParseStyleBlocks.parseFrom fold_left] in H1, H2.
    destruct (parseStyleBlock_ends b start1) as [Hb1 | [mid1 Hb1]];
      rewrite Hb1 in H1.
    { fold (parseFrom OutsideModel bs) in H1.
      now rewrite parseFrom_stopped in H1. }
    destruct (parseStyleBlock_ends b start2) as [Hb2 | [mid2 Hb2]];
      rewrite Hb2 in H2.
    { fold (parseFrom OutsideModel bs) in H2.
      now rewrite parseFrom_stopped in H2. }
    destruct (IH _ _ H1 H2) as (added & E1 & E2).
    assert (Hmid : exists a,
               global mid1 = global start1 ++ a
               /\ global mid2 = global start2 ++ a).
    { destruct b as [|header lines].
      - injection Hb1 as <-. injection Hb2 as <-.
        exists "". now rewrite !append_empty_r.
      - rewrite parseStyleBlock_loop in Hb1, Hb2.
        exact (blockLoop_global _ _ _ _ _ _ Hb1 Hb2). }
    destruct Hmid as (a & M1 & M2).
    exists (a ++ added). now rewrite E1, E2, M1, M2, !append_assoc.
Qed.

(** For parses that end, the global style of the whole is the one of
    the first blocks followed by the one of the others. *)
Lemma parsed_global_concatenates (first others : list (list string))
        (whole styles1 styles2 : Styles) :
  parseStyleBlocks (first ++ others) = Parsed whole ->
  parseStyleBlocks first = Parsed styles1 ->
  parseStyleBlocks others = Parsed styles2 ->
  global whole = global styles1 ++ global styles2.
Proof.
  unfold ParseStyleBlocks.parseStyleBlocks, ParseStyleBlocks.parseFrom.
  rewrite fold_left_app. intros Hwhole H1 H2.
  rewrite H1 in Hwhole.
  destruct (parseFrom_global _ _ _ _ _ Hwhole H2) as (added & E1 & E2).
  cbn [global append] in E2. now rewrite E1, E2.
Qed.

(** The global style of a list of blocks is the global style of its
    first blocks followed by the global style of the others: the
    function returns for the whole list and for both parts, and the three
    results are so related (for blocks that name no class of
    [Object.prototype]). *)
Theorem global_concatenates (first others : list (list string)) :
  namesNoInherited inheritedProperty (first ++ others) = true ->
  exists whole styles1 styles2,
    parseStyleBlocks (first ++ others) = Parsed whole
    /\ parseStyleBlocks first = Parsed styles1
    /\ parseStyleBlocks others = Parsed styles2
    /\ global whole = global styles1 ++ global styles2.
Proof.
  intros Hcovered.
  destruct (namesNoInherited_app first others Hcovered) as [Hfirst Hothers].
  destruct (parseFrom_covered
              (first ++ others)
              {| classes := createDefaultStyleElements; global := "" |}
              Hcovered) as [whole Hwhole].
  destruct (parseFrom_covered
              first {| classes := createDefaultStyleElements; global := "" |}
              Hfirst) as [styles1 H1].
  destruct (parseFrom_covered
              others {| classes := createDefaultStyleElements; global := "" |}
              Hothers) as [styles2 H2].
  exists whole, styles1, styles2.
  split; [exact Hwhole|]. split; [exact H1|]. split; [exact H2|].
  exact (parsed_global_concatenates first others whole styles1 styles2
                                    Hwhole H1 H2).
Qed.

End WithDefaults.

(** *** The selector lines *)

Lemma lazyClassName_plain (name : string) (after : string) :
  isPlainName name = true ->
  stripPrefix ")," after <> None \/ stripPrefix ") {" after <> None ->
  lazyClassName (name ++ after) = Some name.
Proof.
  intros Hname Hafter.
  induction name as [|c name IH]; cbn [append].
  - destruct after as [|a after]; cbn [lazyClassName];
      destruct (stripPrefix ")," _), (stripPrefix ") {" _);
      try reflexivity; destruct Hafter as [H | H]; now contradiction H.
  - cbn [isPlainName] in Hname.
    apply andb_true_iff in Hname. destruct Hname as [Hc Hname].
    apply andb_true_iff in Hc. destruct Hc as [Hterm Hparen].
    apply negb_true_iff in Hterm, Hparen.
    cbn [lazyClassName stripPrefix].
    rewrite Ascii.eqb_sym, Hparen, Hterm, (IH Hname). reflexivity.
Qed.

(** A selector line for a class is recognised with or without the dot
    before the class name, and whether it ends the list of selectors
    (an opening brace follows) or not (a comma follows): for a name made
    of neither closing parentheses nor line terminators, the capture is
    the name. Without the dot, the name must not start with one. *)
Theorem selector_recognised (name : string) :
  isPlainName name = true ->
  matchCueClass ("::cue(." ++ name ++ ") {") = Some name
  /\ matchCueClass ("::cue(." ++ name ++ "),") = Some name
  /\ (stripPrefix "." name = None ->
      matchCueClass ("::cue(" ++ name ++ ") {") = Some name
      /\ matchCueClass ("::cue(" ++ name ++ "),") = Some name).
Proof.
  intros Hname.
  assert (Hbrace : lazyClassName (name ++ ") {") = Some name)
    by (apply lazyClassName_plain; [exact Hname | right; discriminate]).
  assert (Hcomma : lazyClassName (name ++ "),") = Some name)
    by (apply lazyClassName_plain; [exact Hname | left; discriminate]).
  assert (Hdot : forall after,
             lazyClassName (name ++ after) = Some name ->
             matchCueClass ("::cue(." ++ name ++ after) = Some name).
  { intros after H. cbn. now rewrite H. }
  assert (Hnodot : forall after,
             stripPrefix "." name = None ->
             lazyClassName (name ++ after) = Some name ->
             matchCueClass ("::cue(" ++ name ++ after) = Some name).
  { intros after Hd H.
    assert (Hfirst : forall s, name ++ after <> String "." s).
    { intros s E. destruct name as [|c name']; cbn [append] in E.
      - subst after. cbn in H. destruct (lazyClassName s); discriminate H.
      - injection E as -> _. cbn in Hd. discriminate Hd. }
    remember (name ++ after) as s eqn:Es.
    assert (Ha : afterCueOpen s = Some name).
    { unfold afterCueOpen. destruct s as [|a s']; [exact H|].
      destruct a as [[] [] [] [] [] [] [] []]; try exact H.
      exfalso. exact (Hfirst s' eq_refl). }
    cbn -[afterCueOpen]. now rewrite Ha. }
  repeat split; auto.
Qed.

(** *** The scenarios *)

Lemma short_blocks_ignored_witness :
  parseStyleBlocks MoreScenarios.colourClasses MoreScenarios.objectPrototype
                   [[]; ["STYLE"]]
  = Parsed MoreScenarios.initialStyles.
Proof.
  apply (short_blocks_ignored MoreScenarios.colourClasses
                              MoreScenarios.objectPrototype [[]; ["STYLE"]]).
  repeat constructor.
Defined.

(** The two style lines of the global rule, joined, with a class rule
    left to parse after it. *)
Lemma global_rule_witness :
  parseStyleBlock MoreScenarios.objectPrototype
                  (MoreScenarios.globalBlock ++ List.skipn 1 MoreScenarios.classBlock)
                  MoreScenarios.initialStyles
  = parseStyleBlock MoreScenarios.objectPrototype
                    MoreScenarios.classBlock
                    {| classes := MoreScenarios.colourClasses;
                       global := "color: red;font-size: 2em;" |}.
Proof.
  refine (global_rule MoreScenarios.objectPrototype
                      "STYLE" "::cue {" ["color: red;"; "font-size: 2em;"] "}"
                      (List.skipn 1 MoreScenarios.classBlock)
                      MoreScenarios.initialStyles _ _ _);
    repeat constructor.
Defined.

(** The rule of [classBlock] creates the class [a] and extends the
    class [white]. *)
Lemma class_rule_witness :
  exists styles,
    parseStyleBlock MoreScenarios.objectPrototype MoreScenarios.classBlock
                    MoreScenarios.initialStyles
    = Parsed styles
    /\ classes styles "a" = Some "font-style: italic;"
    /\ classes styles "white" = Some "color: #ffffff;font-style: italic;"
    /\ global styles = "".
Proof.
  assert (Hrule := class_rule MoreScenarios.objectPrototype
                              "STYLE" ("::cue(.a),", "a")
                              [("::cue(white) {", "white")]
                              ["font-style: italic;"] "}" []
                              MoreScenarios.initialStyles
                              eq_refl
                              ltac:(repeat constructor)
                              eq_refl
                              ltac:(repeat constructor)
                              eq_refl).
  vm_compute in Hrule.
  eexists. split; [exact Hrule|].
  split; [reflexivity|]. split; reflexivity.
Defined.

Lemma addStyles_lookup_witness :
  exists classes',
    addStyles MoreScenarios.objectPrototype ["a"; "white"] "x: y;"
              MoreScenarios.colourClasses
    = Some classes'
    /\ classes' "a" = Some "x: y;"
    /\ classes' "white" = Some "color: #ffffff;x: y;"
    /\ classes' "bg_black" = Some "background-color: #000000;".
Proof.
  assert (Hrun : { classes' |
                   addStyles MoreScenarios.objectPrototype ["a"; "white"]
                             "x: y;" MoreScenarios.colourClasses
                   = Some classes' })
    by (eexists; reflexivity).
  destruct Hrun as [classes' Hrun].
  assert (Hdistinct : NoDup ["a"; "white"]).
  { repeat constructor; cbn; intuition discriminate. }
  pose proof (addStyles_lookup MoreScenarios.objectPrototype
                               ["a"; "white"] "x: y;"
                               MoreScenarios.colourClasses classes'
                               Hdistinct Hrun) as Hlookup.
  exists classes'. split; [exact Hrun|].
  split; [|split].
  - apply (proj1 (Hlookup "a")). now left.
  - apply (proj1 (Hlookup "white")). right. now left.
  - apply (proj2 (Hlookup "bg_black")). cbn. intuition discriminate.
Defined.

Lemma no_selector_no_class_witness :
  exists global',
    parseStyleBlocks MoreScenarios.colourClasses MoreScenarios.objectPrototype
                     [MoreScenarios.globalBlock]
    = Parsed {| classes := MoreScenarios.colourClasses; global := global' |}.
Proof.
  apply (no_selector_no_class MoreScenarios.colourClasses
                              MoreScenarios.objectPrototype
                              [MoreScenarios.globalBlock]).
  repeat (constructor; cbn).
Defined.

Lemma no_cue_no_global_witness :
  exists styles,
    parseStyleBlocks MoreScenarios.colourClasses MoreScenarios.objectPrototype
                     [MoreScenarios.classBlock]
    = Parsed styles
    /\ global styles = "".
Proof.
  apply (no_cue_no_global MoreScenarios.colourClasses
                          MoreScenarios.objectPrototype
                          [MoreScenarios.classBlock]);
    [reflexivity | repeat (constructor; cbn)].
Defined.

Lemma defaults_kept_witness :
  exists styles added,
    parseStyleBlocks MoreScenarios.colourClasses MoreScenarios.objectPrototype
                     [MoreScenarios.globalBlock; MoreScenarios.classBlock]
    = Parsed styles
    /\ classes styles "white" = Some ("color: #ffffff;" ++ added).
Proof.
  destruct (defaults_kept MoreScenarios.colourClasses
                          MoreScenarios.objectPrototype
                          [MoreScenarios.globalBlock; MoreScenarios.classBlock]
                          eq_refl)
    as (styles & Hrun & Hkept).
  destruct (Hkept "white" "color: #ffffff;" eq_refl) as [added Hadded].
  exists styles, added. split; [exact Hrun | exact Hadded].
Defined.

Lemma global_concatenates_witness :
  exists whole styles1 styles2,
    parseStyleBlocks MoreScenarios.colourClasses MoreScenarios.objectPrototype
                     ([MoreScenarios.globalBlock; MoreScenarios.classBlock]
                        ++ [MoreScenarios.globalBlock])
    = Parsed whole
    /\ parseStyleBlocks MoreScenarios.colourClasses
                        MoreScenarios.objectPrototype
                        [MoreScenarios.globalBlock; MoreScenarios.classBlock]
       = Parsed styles1
    /\ parseStyleBlocks MoreScenarios.colourClasses
                        MoreScenarios.objectPrototype
                        [MoreScenarios.globalBlock]
       = Parsed styles2
    /\ global whole = global styles1 ++ global styles2.
Proof.
  exact (global_concatenates
           MoreScenarios.colourClasses MoreScenarios.objectPrototype
           [MoreScenarios.globalBlock; MoreScenarios.classBlock]
           [MoreScenarios.globalBlock] eq_refl).
Defined.

Lemma selector_recognised_witness :
  matchCueClass "::cue(.white) {" = Some "white"
  /\ matchCueClass "::cue(.white)," = Some "white"
  /\ matchCueClass "::cue(white) {" = Some "white"
  /\ matchCueClass "::cue(white)," = Some "white".
Proof.
  destruct (selector_recognised "white" eq_refl) as (H1 & H2 & H3).
  destruct (H3 eq_refl) as (H4 & H5).
  exact (conj H1 (conj H2 (conj H4 H5))).
Defined.


End ParseStyleBlocksFacts.
